(** * marian: the expression graph (src/expression_graph.h)

    A shallow embedding of [class ExpressionGraph] and [class Expr] and the
    properties of the forward and backward traversals, of the node
    constructors and of the registry of named nodes.

    The member functions are written in a state-and-exception monad over a
    [World]: the fields of the graph, the node objects that [new] has
    created, the tensors held by the nodes, and the log of the virtual calls
    the graph has issued on its nodes. *)

From stdpp Require Import base option list strings gmap fin_maps infinite.
From Stdlib Require Import ZArith.

Module marian.

(** ** Data model *)

(** [ChainPtr] is a shared pointer to a [Chainable<Tensor>]: the address of a
    node object. [ExpressionGraphPtr] is [ExpressionGraph*]. *)
Definition ChainPtr := positive.
Definition ExpressionGraphPtr := positive.

(** [class Expr]: the private fields [graph_] and [pimpl_]. Copying an [Expr]
    copies both pointers, so two copies share the node. *)
Record Expr := mkExpr { graph_ : ExpressionGraphPtr; pimpl_ : ChainPtr }.

#[global] Instance Expr_eq_dec : EqDecision Expr.
Proof. solve_decision. Defined.

(** Modelled from the spec: definitions.h (the keyword arguments) is not part
    of the sources. The only keyword the graph names itself is
    [keywords::value]; every other argument a caller passes through
    [Args ...args] is kept as an opaque key with its payload. *)
Inductive Keyword :=
| value (v : Z)
| keyword (key : string) (payload : Z).

#[global] Instance Keyword_eq_dec : EqDecision Keyword.
Proof. solve_decision. Defined.

(** Modelled from the spec: node_operators.h (the node classes) is not part of
    the sources. Section 2 of the spec names the variants Input, Parameter,
    Constant and the derived operator nodes; section 3 gives every node a list
    of dependencies, which only operator nodes take from their operands. The
    three leaf classes keep the arguments of their constructor. *)
Inductive Chainable :=
| InputNode (args : list Keyword)
| ParamNode (args : list Keyword)
| ConstantNode (args : list Keyword)
| OperatorNode (operands : list ChainPtr).

Definition dependencies (n : Chainable) : list ChainPtr :=
  match n with
  | OperatorNode operands => operands
  | _ => []
  end.

(** The virtual member functions of [Chainable<Tensor>] that the graph
    invokes, with the node they are invoked on. *)
Inductive Call :=
| allocate (v : ChainPtr) (batchSize : Z)
| node_forward (v : ChainPtr)
| node_backward (v : ChainPtr)
| set_zero_adjoint (v : ChainPtr)
| init_dependent (v : ChainPtr)
| node_graphviz (v : ChainPtr).

#[global] Instance Call_eq_dec : EqDecision Call.
Proof. solve_decision. Defined.

(** [class ExpressionGraph]: the private fields. [named_] is a
    [std::map<std::string, Expr>], a map with unique keys. *)
Record ExpressionGraph := mkGraph {
  stack_ : list ChainPtr;
  named_ : gmap string Expr;
  params_ : list Expr;
  inputs_ : list Expr
}.

(** [ExpressionGraph() : stack_(new ChainableStack) {}] *)
Definition ExpressionGraph_ctor : ExpressionGraph :=
  {| stack_ := []; named_ := ∅; params_ := []; inputs_ := [] |}.

(** What a member function can end in. [Throws] is a C++ exception: the
    state reached so far stays. [Undefined] is undefined behaviour.
    [util_Exception] is the exception the graph raises itself, through
    [UTIL_THROW_IF2]; [node_exception c] stands for the exception, of
    whatever C++ type, that leaves the virtual call [c]. *)
Inductive exn :=
| util_Exception (what : string)
| node_exception (c : Call).

(** What an [Expr&] handed out by the graph refers to: [operator[]] returns
    a reference to the handle stored in [named_] under the name looked up. *)
Inductive ExprRef :=
| named_entry (name : string).

Section Graph.

(** The tensors and the bodies of the node classes are out of the graph's
    hands (tensor.h, chainable.h and node_operators.h are not part of the
    sources): [Tensors] is whatever the nodes hold, [dispatch c t] is what
    the virtual call [c] does to it, [None] when the call throws, and
    [fragment v t] is the text [v->graphviz()] returns when it returns. *)
Variable Tensors : Type.
Variable dispatch : Call → Tensors → option Tensors.
Variable fragment : ChainPtr → Tensors → string.

Record World := mkWorld {
  graph : ExpressionGraph;
  heap : gmap ChainPtr Chainable;
  tensors : Tensors;
  calls : list Call
}.

Inductive outcome (A : Type) : Type :=
| Returns (a : A) (w : World)
| Throws (e : exn) (w : World)
| Undefined.
Arguments Returns {A} a w.
Arguments Throws {A} e w.
Arguments Undefined {A}.

Definition M (A : Type) : Type := World → outcome A.

#[global] Instance M_ret : MRet M := λ A a w, Returns a w.
#[global] Instance M_bind : MBind M := λ A B k m w,
  match m w with
  | Returns a w' => k a w'
  | Throws e w' => Throws e w'
  | Undefined => Undefined
  end.

Definition throw {A} (e : exn) : M A := λ w, Throws e w.
Definition undefined {A} : M A := λ _, Undefined.

Definition get_graph : M ExpressionGraph := λ w, Returns (graph w) w.
Definition set_graph (g : ExpressionGraph) : M () := λ w,
  Returns () {| graph := g; heap := heap w; tensors := tensors w; calls := calls w |}.

(** A virtual call [v->f(...)]: it is logged, then the node's body runs. *)
Definition call (c : Call) : M () := λ w,
  let log := calls w ++ [c] in
  match dispatch c (tensors w) with
  | Some t => Returns () {| graph := graph w; heap := heap w; tensors := t; calls := log |}
  | None => Throws (node_exception c)
              {| graph := graph w; heap := heap w; tensors := tensors w; calls := log |}
  end.

(** [ss << it->graphviz()] on the node under the iterator, a virtual call
    like the others: it is logged, then the node's body runs, and when it
    returns its text is [fragment v t], for the tensors [t] it was called
    on. *)
Definition call_graphviz (v : ChainPtr) : M string := λ w,
  let log := calls w ++ [node_graphviz v] in
  match dispatch (node_graphviz v) (tensors w) with
  | Some t => Returns (fragment v (tensors w))
                {| graph := graph w; heap := heap w; tensors := t; calls := log |}
  | None => Throws (node_exception (node_graphviz v))
              {| graph := graph w; heap := heap w; tensors := tensors w; calls := log |}
  end.

(** ** Control structures *)

(** [for(auto&& v : c) body] *)
Fixpoint for_each {A} (body : A → M ()) (c : list A) : M () :=
  match c with
  | [] => mret ()
  | v :: c' => body v ;; for_each body c'
  end.

(** [for(It it = c.rbegin(); it != c.rend(); ++it) body( *it )]. A reverse
    iterator holds a base position and dereferences the element before it:
    [rbegin()] has base [size()], [rend()] has base [0], [++it] lowers the
    base by one. *)
Fixpoint for_reverse (body : ChainPtr → M ()) (c : list ChainPtr) (base : nat) : M () :=
  match base with
  | O => mret ()
  | S k =>
      match c !! k with
      | Some v => body v ;; for_reverse body c k
      | None => undefined
      end
  end.

(** [c.back()]: undefined behaviour on an empty vector. *)
Definition back (c : list ChainPtr) : M ChainPtr :=
  match last c with
  | Some v => mret v
  | None => undefined
  end.

(** ** The traversals *)

(** [ChainableStackPtr stack()] hands out the stack. The model returns its
    contents; what a caller does through the pointer is outside the graph. *)
Definition stack : M (list ChainPtr) :=
  g ← get_graph; mret (stack_ g).

(** [void forward(int batchSize)] *)
Definition forward (batchSize : Z) : M () :=
  c ← stack;
  for_each (λ v, call (allocate v batchSize)) c ;;
  c ← stack;
  for_each (λ v, call (node_forward v)) c.

(** [void backward()] *)
Definition backward : M () :=
  c ← stack;
  for_each (λ v, call (set_zero_adjoint v)) c ;;
  c ← stack;
  v ← back c;
  call (init_dependent v) ;;
  c ← stack;
  for_reverse (λ v, call (node_backward v)) c (length c).

(** [void backprop(int batchSize)] *)
Definition backprop (batchSize : Z) : M () :=
  forward batchSize ;;
  backward.

(** [std::endl] *)
Definition endl : string := String (Ascii.ascii_of_nat 10) EmptyString.

(** The loop of [graphviz()], the same reverse traversal with the
    [stringstream] threaded through. *)
Fixpoint graphviz_loop (c : list ChainPtr) (base : nat) (ss : string) : M string :=
  match base with
  | O => mret ss
  | S k =>
      match c !! k with
      | Some v => f ← call_graphviz v; graphviz_loop c k (ss +:+ f)
      | None => undefined
      end
  end.

(** [std::string graphviz()] *)
Definition graphviz : M string :=
  let ss := "digraph ExpressionGraph {" +:+ endl in
  let ss := ss +:+ "rankdir=BT" +:+ endl in
  c ← stack;
  ss ← graphviz_loop c (length c) ss;
  mret (ss +:+ "}" +:+ endl).

(** ** Node construction *)

(** [new Node(args...)]: a node object at an address no live node has.
    Running out of memory is not modelled. *)
Definition new (n : Chainable) : M ChainPtr := λ w,
  let p := fresh (dom (heap w)) in
  Returns p {| graph := graph w; heap := <[p:=n]> (heap w);
               tensors := tensors w; calls := calls w |}.

(** Modelled from the spec: the body of the constructor
    [Expr(ExpressionGraphPtr g, Chainable<Tensor>* chainable)] is not part of
    the sources (expression_graph.h only declares it). By section 4.1 of the
    spec a construction call wraps the new node in a handle and appends the
    node to the ordered collection of its graph. *)
Definition Expr_ctor (g : ExpressionGraphPtr) (chainable : ChainPtr) : M Expr :=
  gr ← get_graph;
  set_graph {| stack_ := stack_ gr ++ [chainable]; named_ := named_ gr;
               params_ := params_ gr; inputs_ := inputs_ gr |} ;;
  mret {| graph_ := g; pimpl_ := chainable |}.

(** [inputs_.emplace_back(e)] and [params_.emplace_back(e)] *)
Definition inputs_emplace_back (e : Expr) : M () :=
  gr ← get_graph;
  set_graph {| stack_ := stack_ gr; named_ := named_ gr;
               params_ := params_ gr; inputs_ := inputs_ gr ++ [e] |}.

Definition params_emplace_back (e : Expr) : M () :=
  gr ← get_graph;
  set_graph {| stack_ := stack_ gr; named_ := named_ gr;
               params_ := params_ gr ++ [e]; inputs_ := inputs_ gr |}.

(** [Expr input(Args ...args)] *)
Definition input (this : ExpressionGraphPtr) (args : list Keyword) : M Expr :=
  n ← new (InputNode args);
  e ← Expr_ctor this n;
  inputs_emplace_back e ;;
  mret e.

(** [Expr param(Args ...args)] *)
Definition param (this : ExpressionGraphPtr) (args : list Keyword) : M Expr :=
  n ← new (ParamNode args);
  e ← Expr_ctor this n;
  params_emplace_back e ;;
  mret e.

(** [Expr constant(Args ...args)] *)
Definition constant (this : ExpressionGraphPtr) (args : list Keyword) : M Expr :=
  n ← new (ConstantNode args);
  Expr_ctor this n.

(** [Expr ones(Args ...args)] *)
Definition ones (this : ExpressionGraphPtr) (args : list Keyword) : M Expr :=
  n ← new (ConstantNode (value 1 :: args));
  Expr_ctor this n.

(** [Expr zeroes(Args ...args)] *)
Definition zeroes (this : ExpressionGraphPtr) (args : list Keyword) : M Expr :=
  n ← new (ConstantNode (value 0 :: args));
  Expr_ctor this n.

(** ** The registry of named nodes *)

(** The three operations of [std::map] the graph uses. [find] gives the
    entry under a key or [end()], here [None]; [count] is 0 or 1, the keys
    being unique; [emplace] inserts only when the key has no entry yet. *)
Definition map_find (name : string) (m : gmap string Expr) : option Expr :=
  m !! name.

Definition map_count (name : string) (m : gmap string Expr) : nat :=
  match m !! name with
  | Some _ => 1
  | None => 0
  end.

Definition map_emplace (name : string) (e : Expr) (m : gmap string Expr) : gmap string Expr :=
  match m !! name with
  | Some _ => m
  | None => <[name:=e]> m
  end.

(** Modelled from the spec: the macro [UTIL_THROW_IF2] is not part of the
    sources. Section 7 of the spec has the lookup of an absent name fail at
    once with the NameNotFound condition: the macro throws an exception
    carrying its message when its condition holds. *)
Definition UTIL_THROW_IF2 (condition : bool) (what : string) : M () :=
  if condition then throw (util_Exception what) else mret ().

Definition NameNotFound (name : string) : exn :=
  util_Exception ("No such named node in graph: " +:+ name).

(** [Expr& operator[](const std::string& name)]. The model returns the
    handle stored in the registry. *)
Definition operator_index (name : string) : M Expr :=
  gr ← get_graph;
  let it := map_find name (named_ gr) in
  UTIL_THROW_IF2 (bool_decide (it = None)) ("No such named node in graph: " +:+ name) ;;
  match it with
  | Some e => mret e
  | None => undefined
  end.

(** [bool has_node(const std::string& name) const] *)
Definition has_node (name : string) : M bool :=
  gr ← get_graph;
  mret (bool_decide (0 < map_count name (named_ gr))).

(** [void add_named_node(Expr e, const std::string& name)] *)
Definition add_named_node (e : Expr) (name : string) : M () :=
  gr ← get_graph;
  set_graph {| stack_ := stack_ gr; named_ := map_emplace name e (named_ gr);
               params_ := params_ gr; inputs_ := inputs_ gr |}.

(** [std::vector<Expr>& inputs()] and [std::vector<Expr>& params()] *)
Definition inputs : M (list Expr) :=
  gr ← get_graph; mret (inputs_ gr).

Definition params : M (list Expr) :=
  gr ← get_graph; mret (params_ gr).

(** ** Runs of a graph *)

(** The public member functions, as a caller invokes them. *)
Inductive Op :=
| op_backprop (batchSize : Z)
| op_forward (batchSize : Z)
| op_backward
| op_graphviz
| op_input (args : list Keyword)
| op_param (args : list Keyword)
| op_constant (args : list Keyword)
| op_ones (args : list Keyword)
| op_zeroes (args : list Keyword)
| op_stack
| op_index (name : string)
| op_has_node (name : string)
| op_add_named_node (e : Expr) (name : string)
| op_inputs
| op_params.

Definition discard {A} (m : M A) : M () := m ;; mret ().

Definition invoke (this : ExpressionGraphPtr) (o : Op) : M () :=
  match o with
  | op_backprop b => backprop b
  | op_forward b => forward b
  | op_backward => backward
  | op_graphviz => discard graphviz
  | op_input args => discard (input this args)
  | op_param args => discard (param this args)
  | op_constant args => discard (constant this args)
  | op_ones args => discard (ones this args)
  | op_zeroes args => discard (zeroes this args)
  | op_stack => discard stack
  | op_index name => discard (operator_index name)
  | op_has_node name => discard (has_node name)
  | op_add_named_node e name => add_named_node e name
  | op_inputs => discard inputs
  | op_params => discard params
  end.

(** [ends m w w']: the call [m] started in [w] comes back to its caller in
    [w'], by returning or by throwing. *)
Definition ends {A} (m : M A) (w w' : World) : Prop :=
  (∃ a, m w = Returns a w') ∨ (∃ e, m w = Throws e w').

(** [run this ops w w']: the calls [ops], made one after the other on the
    graph, lead from [w] to [w']. A caller may catch an exception and go
    on. *)
Inductive run (this : ExpressionGraphPtr) : list Op → World → World → Prop :=
| run_nil w : run this [] w w
| run_cons o ops w w1 w2 :
    ends (invoke this o) w w1 → run this ops w1 w2 → run this (o :: ops) w w2.

(** [binds w name e]: the registry holds the entry [(name, e)]. *)
Definition binds (w : World) (name : string) (e : Expr) : Prop :=
  named_ (graph w) !! name = Some e.

(** The dependency list of the node at address [p], if there is one. *)
Definition dependency_list (w : World) (p : ChainPtr) : option (list ChainPtr) :=
  dependencies <$> heap w !! p.

(** [keeps_dependencies w w1]: every node of [w] is still there in [w1],
    the same object with the same dependency list. *)
Definition keeps_dependencies (w w1 : World) : Prop :=
  ∀ p, is_Some (heap w !! p) →
       heap w1 !! p = heap w !! p ∧ dependency_list w1 p = dependency_list w p.

(** The reading of section 3 of the spec under which registering under a
    bound name adds an alias: after [add_named_node(e, name)] the registry
    holds the earlier entry and the new one. *)
Definition registers_alias (w : World) (e : Expr) (name : string) : Prop :=
  ∀ e0, binds w name e0 →
    ∃ w1, add_named_node e name w = Returns () w1 ∧
          binds w1 name e0 ∧ binds w1 name e.

(** The round trip of section 8 of the spec, on whatever graph:
    [add_named_node(h, name)] followed by [operator[](name)] gives a handle
    on the node of [h]. *)
Definition round_trip (w : World) (h : Expr) (name : string) : Prop :=
  ∃ w1 e, add_named_node h name w = Returns () w1 ∧
          operator_index name w1 = Returns e w1 ∧
          pimpl_ e = pimpl_ h.

(** ** The reference [operator[]] returns *)

(** [Expr& operator[](const std::string& name)] as a caller that keeps the
    reference sees it: the same lookup, the same exception, and on success
    [it->second] itself, the entry of [named_] under [name], not a copy. *)
Definition operator_index_ref (name : string) : M ExprRef :=
  gr ← get_graph;
  let it := map_find name (named_ gr) in
  UTIL_THROW_IF2 (bool_decide (it = None)) ("No such named node in graph: " +:+ name) ;;
  match it with
  | Some _ => mret (named_entry name)
  | None => undefined
  end.

(** Reading the handle a reference refers to. *)
Definition Expr_read (r : ExprRef) : M Expr :=
  gr ← get_graph;
  match r with
  | named_entry name =>
      match named_ gr !! name with
      | Some e => mret e
      | None => undefined
      end
  end.

(** [class Expr] declares [operator=(Tensor)] only, so it keeps the implicit
    copy assignment [Expr& operator=(const Expr&)], which copies [graph_]
    and [pimpl_] into the object assigned to: through a reference into
    [named_] it overwrites the handle stored there. *)
Definition Expr_copy_assign (r : ExprRef) (h : Expr) : M () :=
  gr ← get_graph;
  match r with
  | named_entry name =>
      match named_ gr !! name with
      | Some _ =>
          set_graph {| stack_ := stack_ gr; named_ := <[name:=h]> (named_ gr);
                       params_ := params_ gr; inputs_ := inputs_ gr |}
      | None => undefined
      end
  end.

(** The statement [graph[name] = h] of a caller. *)
Definition assign_through_index (name : string) (h : Expr) : M () :=
  r ← operator_index_ref name;
  Expr_copy_assign r h.

(** What a caller does with the graph: it calls a member function, or it
    assigns through the reference [operator[]] returns. *)
Inductive Step :=
| call_member (o : Op)
| assign_entry (name : string) (h : Expr).

Definition step (this : ExpressionGraphPtr) (s : Step) : M () :=
  match s with
  | call_member o => invoke this o
  | assign_entry name h => assign_through_index name h
  end.

Inductive caller_run (this : ExpressionGraphPtr) : list Step → World → World → Prop :=
| caller_run_nil w : caller_run this [] w w
| caller_run_cons s steps w w1 w2 :
    ends (step this s) w w1 → caller_run this steps w1 w2 →
    caller_run this (s :: steps) w w2.

(** The reading under which a binding of the registry is immutable: once
    [name] is bound to [e], whatever a caller does next, the lookup of
    [name] returns [e]. *)
Definition binding_immutable (this : ExpressionGraphPtr) (w : World)
    (name : string) (e : Expr) : Prop :=
  binds w name e →
  ∀ steps w', caller_run this steps w w' → operator_index name w' = Returns e w'.

(** ** Flat call sequences *)

(** [perform cs]: the calls of [cs], one after the other, up to the first
    that throws. The traversals are compared with it. *)
Definition perform (cs : list Call) : M () := for_each call cs.

(** The calls section 4.1 of the spec lists for [forward(batchSize)] over
    the stack [c], and for [backward()] over the stack [c ++ [v]]. *)
Definition forward_sequence (batchSize : Z) (c : list ChainPtr) : list Call :=
  ((λ v, allocate v batchSize) <$> c) ++ (node_forward <$> c).

Definition backward_sequence (c : list ChainPtr) (v : ChainPtr) : list Call :=
  (set_zero_adjoint <$> c ++ [v]) ++ [init_dependent v] ++
  (node_backward <$> v :: reverse c).

(** The spec's reading of [backprop]: run [forward(batchSize)], then
    [backward()] from where it ended. *)
Definition forward_then_backward (batchSize : Z) : M () := λ w,
  match forward batchSize w with
  | Returns _ w1 => backward w1
  | Throws e w1 => Throws e w1
  | Undefined => Undefined
  end.

End Graph.

Arguments Returns {Tensors A} a w.
Arguments Throws {Tensors A} e w.
Arguments Undefined {Tensors A}.
Arguments mkWorld {Tensors} graph heap tensors calls.
Arguments graph {Tensors} w.
Arguments heap {Tensors} w.
Arguments tensors {Tensors} w.
Arguments calls {Tensors} w.
Arguments for_each {Tensors A} body c w.
Arguments for_reverse {Tensors} body c base w.
Arguments back {Tensors} c w.
Arguments stack {Tensors} w.
Arguments call {Tensors} dispatch c w.
Arguments perform {Tensors} dispatch cs w.
Arguments forward {Tensors} dispatch batchSize w.
Arguments backward {Tensors} dispatch w.
Arguments backprop {Tensors} dispatch batchSize w.
Arguments forward_then_backward {Tensors} dispatch batchSize w.
Arguments graphviz {Tensors} dispatch fragment w.
Arguments new {Tensors} n w.
Arguments Expr_ctor {Tensors} g chainable w.
Arguments input {Tensors} this args w.
Arguments param {Tensors} this args w.
Arguments constant {Tensors} this args w.
Arguments ones {Tensors} this args w.
Arguments zeroes {Tensors} this args w.
Arguments operator_index {Tensors} name w.
Arguments has_node {Tensors} name w.
Arguments add_named_node {Tensors} e name w.
Arguments inputs {Tensors} w.
Arguments params {Tensors} w.
Arguments invoke {Tensors} dispatch fragment this o w.
Arguments ends {Tensors A} m w w'.
Arguments run {Tensors} dispatch fragment this _ _ _.
Arguments binds {Tensors} w name e.
Arguments dependency_list {Tensors} w p.
Arguments keeps_dependencies {Tensors} w w1.
Arguments registers_alias {Tensors} w e name.
Arguments round_trip {Tensors} w h name.
Arguments operator_index_ref {Tensors} name w.
Arguments Expr_read {Tensors} r w.
Arguments Expr_copy_assign {Tensors} r h w.
Arguments assign_through_index {Tensors} name h w.
Arguments step {Tensors} dispatch fragment this s w.
Arguments caller_run {Tensors} dispatch fragment this _ _ _.
Arguments binding_immutable {Tensors} dispatch fragment this w name e.
Arguments throw {Tensors A} e w.
Arguments undefined {Tensors A} _.
Arguments get_graph {Tensors} w.
Arguments set_graph {Tensors} g w.
Arguments discard {Tensors A} m w.
Arguments UTIL_THROW_IF2 {Tensors} condition what w.
Arguments inputs_emplace_back {Tensors} e w.
Arguments params_emplace_back {Tensors} e w.
Arguments call_graphviz {Tensors} dispatch fragment v w.
Arguments graphviz_loop {Tensors} dispatch fragment c base ss w.

(** ** Sample node implementations and graphs *)

(** Nodes whose calls all return: the tensors are a counter of the calls
    executed. *)
Definition counting_dispatch (c : Call) (t : nat) : option nat := Some (S t).

(** Nodes where allocating for an empty batch throws. *)
Definition strict_dispatch (c : Call) (t : nat) : option nat :=
  match c with
  | allocate _ b => if bool_decide (0 < b)%Z then Some (S t) else None
  | _ => Some (S t)
  end.

Definition no_fragment (v : ChainPtr) (t : nat) : string := "".

(** A freshly constructed graph. *)
Definition fresh_world : World nat :=
  {| graph := ExpressionGraph_ctor; heap := ∅; tensors := 0; calls := [] |}.

(** A graph of three nodes: two parameters at addresses 1 and 2 and an
    operator node over them at address 3, the first parameter named "w". *)
Definition three_nodes : World nat :=
  {| graph := {| stack_ := [1; 2; 3]%positive;
                 named_ := {[ "w" := mkExpr 1%positive 1%positive ]};
                 params_ := [mkExpr 1%positive 1%positive; mkExpr 1%positive 2%positive];
                 inputs_ := [] |};
     heap := {[ 1%positive := ParamNode []; 2%positive := ParamNode [];
                3%positive := OperatorNode [1; 2]%positive ]};
     tensors := 0;
     calls := [] |}.

(** The freshly constructed graph after [add_named_node] of a handle on
    node 1 under "w". *)
Definition named_world : World nat :=
  {| graph := {| stack_ := []; named_ := {[ "w" := mkExpr 1%positive 1%positive ]};
                 params_ := []; inputs_ := [] |};
     heap := ∅; tensors := 0; calls := [] |}.

(** Nodes that answer [graphviz()] with their address and a semicolon, for
    the first three addresses. *)
Definition address_fragment (v : ChainPtr) (t : nat) : string :=
  match v with
  | 1%positive => "1;"
  | 2%positive => "2;"
  | 3%positive => "3;"
  | _ => "?;"
  end.

(** A session on a new graph: a parameter and an input are constructed, the
    parameter is named "w", the input is then offered under the same name,
    the graph is evaluated for a batch of two, and a name nobody registered
    is looked up. [session_end] is the state it ends in. *)
Definition session : list Op :=
  [op_param []; op_input [keyword "shape" 2];
   op_add_named_node (mkExpr 1%positive 1%positive) "w";
   op_add_named_node (mkExpr 1%positive 2%positive) "w";
   op_forward 2; op_backward; op_index "missing"].

Definition session_end : World nat :=
  {| graph := {| stack_ := [1; 2]%positive;
                 named_ := {[ "w" := mkExpr 1%positive 1%positive ]};
                 params_ := [mkExpr 1%positive 1%positive];
                 inputs_ := [mkExpr 1%positive 2%positive] |};
     heap := {[ 1%positive := ParamNode [];
                2%positive := InputNode [keyword "shape" 2] ]};
     tensors := 9;
     calls := [allocate 1%positive 2; allocate 2%positive 2;
               node_forward 1%positive; node_forward 2%positive;
               set_zero_adjoint 1%positive; set_zero_adjoint 2%positive;
               init_dependent 2%positive;
               node_backward 2%positive; node_backward 1%positive] |}.

(** ** Summaries of the member functions *)

(** The node object a call constructs, for the five construction calls. *)
Definition constructs (o : Op) : option Chainable :=
  match o with
  | op_input args => Some (InputNode args)
  | op_param args => Some (ParamNode args)
  | op_constant args => Some (ConstantNode args)
  | op_ones args => Some (ConstantNode (value 1 :: args))
  | op_zeroes args => Some (ConstantNode (value 0 :: args))
  | _ => None
  end.

(** The node objects after the call [o], made on the node objects [h]. *)
Definition heap_after (o : Op) (h : gmap ChainPtr Chainable) : gmap ChainPtr Chainable :=
  match constructs o with
  | Some n => <[fresh (dom h):=n]> h
  | None => h
  end.

(** The fields of the graph after the call [o], made on the fields [g] with
    the node objects [h]. *)
Definition graph_after (this : ExpressionGraphPtr) (o : Op)
    (h : gmap ChainPtr Chainable) (g : ExpressionGraph) : ExpressionGraph :=
  let p := fresh (dom h) in
  match o with
  | op_input _ =>
      {| stack_ := stack_ g ++ [p]; named_ := named_ g; params_ := params_ g;
         inputs_ := inputs_ g ++ [mkExpr this p] |}
  | op_param _ =>
      {| stack_ := stack_ g ++ [p]; named_ := named_ g;
         params_ := params_ g ++ [mkExpr this p]; inputs_ := inputs_ g |}
  | op_constant _ | op_ones _ | op_zeroes _ =>
      {| stack_ := stack_ g ++ [p]; named_ := named_ g; params_ := params_ g;
         inputs_ := inputs_ g |}
  | op_add_named_node e name =>
      {| stack_ := stack_ g; named_ := map_emplace name e (named_ g);
         params_ := params_ g; inputs_ := inputs_ g |}
  | _ => g
  end.

Definition is_input (o : Op) : bool :=
  match o with op_input _ => true | _ => false end.

Definition is_param (o : Op) : bool :=
  match o with op_param _ => true | _ => false end.


(** The node a virtual call is made on. *)
Definition callee (c : Call) : ChainPtr :=
  match c with
  | allocate v _ | node_forward v | node_backward v
  | set_zero_adjoint v | init_dependent v | node_graphviz v => v
  end.

(** The calls that go into the nodes: the traversals and the rendering. *)
Definition visits_nodes (o : Op) : bool :=
  match o with
  | op_backprop _ | op_forward _ | op_backward | op_graphviz => true
  | _ => false
  end.

(** How many of the calls [ops] the test [f] selects. *)
Definition count_calls (f : Op → bool) (ops : list Op) : nat :=
  length (List.filter f ops).

(** The handles the calls [ops] register under [name], in call order. *)
Definition registrations (name : string) (ops : list Op) : list Expr :=
  omap (λ o, match o with
             | op_add_named_node e n => if decide (n = name) then Some e else None
             | _ => None
             end) ops.

(** The text of [graphviz()] over the stack [c], when the node [v] answers
    [frag v]: the two header lines, the fragments of the nodes from the last
    constructed to the first, and the closing line. *)
Definition fragments (frag : ChainPtr → string) (c : list ChainPtr) : string :=
  foldr (λ v s, frag v +:+ s) "" c.

Definition graphviz_text (frag : ChainPtr → string) (c : list ChainPtr) : string :=
  ("digraph ExpressionGraph {" +:+ endl +:+ "rankdir=BT" +:+ endl) +:+
  fragments frag (reverse c) +:+ "}" +:+ endl.

(** The fragments [graphviz()] gathers when it asks the nodes [c] in that
    order, starting from the tensors [t]: each node answers from the tensors
    the calls before it have left, for as long as the calls return. *)
Fixpoint fragments_along {Tensors} (dispatch : Call → Tensors → option Tensors)
    (fragment : ChainPtr → Tensors → string) (c : list ChainPtr) (t : Tensors) : string :=
  match c with
  | [] => ""
  | v :: c' =>
      fragment v t +:+
      match dispatch (node_graphviz v) t with
      | Some t' => fragments_along dispatch fragment c' t'
      | None => ""
      end
  end.

(** The handles of the input list are handles of this graph on [InputNode]
    objects, those of the parameter list on [ParamNode] objects. *)
Definition lists_typed {Tensors} (this : ExpressionGraphPtr) (w : World Tensors) : Prop :=
  (∀ e, e ∈ inputs_ (graph w) →
        graph_ e = this ∧ ∃ args, heap w !! pimpl_ e = Some (InputNode args)) ∧
  (∀ e, e ∈ params_ (graph w) →
        graph_ e = this ∧ ∃ args, heap w !! pimpl_ e = Some (ParamNode args)).


(** ** Properties *)

Section Properties.

Context {Tensors : Type}.
Variable dispatch : Call → Tensors → option Tensors.
Variable fragment : ChainPtr → Tensors → string.

Implicit Types (w : World Tensors) (c : list ChainPtr) (cs : list Call).

Ltac unfold_M :=
  unfold mbind, M_bind, mret, M_ret, throw, undefined, get_graph, set_graph in *.

(** *** The loops *)

Lemma for_each_app {A} (body : A → M Tensors ()) (l1 l2 : list A) w :
  for_each body (l1 ++ l2) w = (for_each body l1 ;; for_each body l2) w.
Proof.
  revert w. induction l1 as [|x l1 IH]; intros w; simpl.
  - reflexivity.
  - unfold_M. destruct (body x w); auto.
Qed.

Lemma for_each_call {A} (f : A → Call) (l : list A) w :
  for_each (λ v, call dispatch (f v)) l w = perform dispatch (f <$> l) w.
Proof.
  unfold perform. revert w. induction l as [|x l IH]; intros w; simpl.
  - reflexivity.
  - unfold_M. destruct (call dispatch (f x) w); auto.
Qed.

Lemma perform_app cs1 cs2 w :
  perform dispatch (cs1 ++ cs2) w = (perform dispatch cs1 ;; perform dispatch cs2) w.
Proof. apply for_each_app. Qed.

Lemma for_reverse_take (body : ChainPtr → M Tensors ()) c (k : nat) w :
  k ≤ length c →
  for_reverse body c k w = for_each body (reverse (take k c)) w.
Proof.
  revert w. induction k as [|k IH]; intros w Hk; simpl.
  - reflexivity.
  - destruct (lookup_lt_is_Some_2 c k) as [x Hx]; [lia|].
    rewrite Hx. erewrite take_S_r by eassumption.
    rewrite reverse_snoc. simpl. unfold_M.
    destruct (body x w); auto. apply IH. lia.
Qed.

Lemma for_reverse_all (body : ChainPtr → M Tensors ()) c w :
  for_reverse body c (length c) w = for_each body (reverse c) w.
Proof. rewrite for_reverse_take by lia. by rewrite firstn_all. Qed.

(** *** What a virtual call leaves alone *)

Lemma call_ends (x : Call) w w' :
  ends (call dispatch x) w w' →
  graph w' = graph w ∧ heap w' = heap w ∧ calls w' = calls w ++ [x].
Proof.
  unfold ends, call. destruct (dispatch x (tensors w));
    intros [[a H]|[e H]]; inversion H; subst; simpl; auto.
Qed.

Lemma call_defined (x : Call) w : call dispatch x w ≠ Undefined.
Proof. unfold call. destruct (dispatch x (tensors w)); discriminate. Qed.

Lemma perform_defined cs w : perform dispatch cs w ≠ Undefined.
Proof.
  unfold perform. revert w. induction cs as [|x cs IH]; intros w; simpl.
  - discriminate.
  - unfold_M. pose proof (call_defined x w).
    destruct (call dispatch x w); [apply IH | discriminate | congruence].
Qed.

Lemma perform_returns cs w w' :
  perform dispatch cs w = Returns () w' →
  graph w' = graph w ∧ heap w' = heap w ∧ calls w' = calls w ++ cs.
Proof.
  unfold perform. revert w. induction cs as [|x cs IH]; intros w; simpl.
  - unfold_M. intros H; inversion H; subst. by rewrite app_nil_r.
  - unfold_M. destruct (call dispatch x w) as [[] w1|e w1|] eqn:Hx; try discriminate.
    intros H. apply IH in H as (Hg & Hh & Hc).
    destruct (call_ends x w w1) as (Hg1 & Hh1 & Hc1); [left; eauto|].
    rewrite Hg, Hh, Hc, Hg1, Hh1, Hc1, <- app_assoc. auto.
Qed.

Lemma perform_throws cs w w' e :
  perform dispatch cs w = Throws e w' →
  graph w' = graph w ∧ heap w' = heap w ∧
  ∃ d x, d ++ [x] `prefix_of` cs ∧ e = node_exception x ∧ calls w' = calls w ++ d ++ [x].
Proof.
  unfold perform. revert w. induction cs as [|x cs IH]; intros w; simpl.
  - unfold_M. discriminate.
  - unfold_M. destruct (call dispatch x w) as [[] w1|e1 w1|] eqn:Hx; try discriminate.
    + intros H. apply IH in H as (Hg & Hh & d & y & Hp & He & Hc).
      destruct (call_ends x w w1) as (Hg1 & Hh1 & Hc1); [left; eauto|].
      rewrite Hg, Hh, Hc, Hg1, Hh1, Hc1. repeat split; auto.
      exists (x :: d), y. repeat split; auto.
      * simpl. by apply prefix_cons.
      * by rewrite <- app_assoc.
    + intros H; inversion H; subst.
      destruct (call_ends x w w') as (Hg1 & Hh1 & Hc1); [right; eauto|].
      repeat split; auto. exists [], x. repeat split; auto.
      * simpl. apply prefix_cons, prefix_nil.
      * unfold call in Hx. destruct (dispatch x (tensors w)); congruence.
Qed.

Lemma perform_total cs w :
  (∀ x t, x ∈ cs → is_Some (dispatch x t)) →
  ∃ w', perform dispatch cs w = Returns () w'.
Proof.
  unfold perform. revert w. induction cs as [|x cs IH]; intros w Hd; simpl.
  - eexists. reflexivity.
  - unfold_M. unfold call at 1.
    destruct (Hd x (tensors w)) as [t Ht]; [left|]. rewrite Ht.
    apply IH. intros y t' Hy. apply Hd. by right.
Qed.

(** *** The traversals as flat call sequences *)

Lemma stack_returns w : stack w = Returns (stack_ (graph w)) w.
Proof. reflexivity. Qed.

Lemma back_snoc c (v : ChainPtr) w : back (c ++ [v]) w = Returns v w.
Proof. unfold back. by rewrite last_snoc. Qed.

Lemma forward_perform (b : Z) w :
  forward dispatch b w =
  perform dispatch (forward_sequence b (stack_ (graph w))) w.
Proof.
  unfold forward_sequence. rewrite perform_app. unfold forward. unfold_M. rewrite stack_returns.
  rewrite for_each_call.
  destruct (perform dispatch _ w) as [[] w1|e w1|] eqn:H1; auto.
  apply perform_returns in H1 as (Hg & _ & _).
  rewrite stack_returns, Hg. apply for_each_call.
Qed.

Lemma backward_perform w c (v : ChainPtr) :
  stack_ (graph w) = c ++ [v] →
  backward dispatch w =
  perform dispatch (backward_sequence c v) w.
Proof.
  intros Hs. unfold backward_sequence. rewrite perform_app. unfold backward. unfold_M.
  rewrite stack_returns, Hs, for_each_call.
  destruct (perform dispatch _ w) as [[] w1|e w1|] eqn:H1; auto.
  apply perform_returns in H1 as (Hg1 & _ & _).
  rewrite stack_returns, Hg1, Hs, back_snoc.
  change ([init_dependent v] ++ (node_backward <$> v :: reverse c))
    with (init_dependent v :: (node_backward <$> v :: reverse c)).
  unfold perform at 1. simpl for_each. unfold_M.
  destruct (call dispatch (init_dependent v) w1) as [[] w2|e w2|] eqn:H2; auto.
  destruct (call_ends (init_dependent v) w1 w2) as (Hg2 & _ & _); [left; eauto|].
  rewrite stack_returns, Hg2, Hg1, Hs, for_reverse_all, reverse_snoc.
  apply (for_each_call node_backward (v :: reverse c)).
Qed.

Lemma backward_nil w : stack_ (graph w) = [] → backward dispatch w = Undefined.
Proof.
  intros Hs. unfold backward. unfold_M. rewrite stack_returns, Hs. simpl.
  unfold_M. unfold stack. unfold_M. by rewrite Hs.
Qed.

Lemma perform_frame cs w w' :
  ends (perform dispatch cs) w w' → graph w' = graph w ∧ heap w' = heap w.
Proof.
  intros [[[] H]|[e H]].
  - apply perform_returns in H. tauto.
  - apply perform_throws in H. tauto.
Qed.

Lemma forward_frame (b : Z) w w' :
  ends (forward dispatch b) w w' → graph w' = graph w ∧ heap w' = heap w.
Proof. unfold ends. rewrite forward_perform. apply perform_frame. Qed.

Lemma backward_frame w w' :
  ends (backward dispatch) w w' → graph w' = graph w ∧ heap w' = heap w.
Proof.
  unfold ends. destruct (stack_ (graph w)) as [|x l] eqn:Hs using rev_ind.
  - rewrite backward_nil by done. intros [[? ?]|[? ?]]; discriminate.
  - rewrite (backward_perform w l x) by done. apply perform_frame.
Qed.

Lemma backprop_frame (b : Z) w w' :
  ends (backprop dispatch b) w w' → graph w' = graph w ∧ heap w' = heap w.
Proof.
  unfold ends, backprop. unfold_M.
  destruct (forward dispatch b w) as [[] w1|e w1|] eqn:Hf.
  - intros H. apply backward_frame in H as [Hg Hh].
    destruct (forward_frame b w w1) as [Hg1 Hh1]; [left; eauto|].
    split; congruence.
  - intros [[? H]|[? H]]; inversion H; subst.
    apply (forward_frame b). right; eauto.
  - intros [[? ?]|[? ?]]; discriminate.
Qed.

(** *** The registry *)

Lemma map_emplace_bound (m : gmap string Expr) name e e0 :
  m !! name = Some e0 → map_emplace name e m = m.
Proof. unfold map_emplace. by intros ->. Qed.

Lemma map_emplace_free (m : gmap string Expr) name e :
  m !! name = None → map_emplace name e m = <[name:=e]> m.
Proof. unfold map_emplace. by intros ->. Qed.

Lemma map_emplace_keeps (m : gmap string Expr) name e k e0 :
  m !! k = Some e0 → map_emplace name e m !! k = Some e0.
Proof.
  intros Hk. unfold map_emplace. destruct (m !! name) eqn:Hn; [done|].
  rewrite lookup_insert_ne; [done|]. intros ->. congruence.
Qed.

Lemma map_emplace_other (m : gmap string Expr) name e k :
  k ≠ name → map_emplace name e m !! k = m !! k.
Proof.
  intros Hk. unfold map_emplace. destruct (m !! name); [done|].
  by rewrite lookup_insert_ne.
Qed.

Lemma world_eta w :
  {| graph := graph w; heap := heap w; tensors := tensors w; calls := calls w |} = w.
Proof. by destruct w. Qed.

Lemma graph_eta (g : ExpressionGraph) :
  {| stack_ := stack_ g; named_ := named_ g; params_ := params_ g; inputs_ := inputs_ g |} = g.
Proof. by destruct g. Qed.

Lemma operator_index_bound w name e :
  named_ (graph w) !! name = Some e → operator_index name w = Returns e w.
Proof.
  intros H. unfold operator_index, UTIL_THROW_IF2, map_find. unfold_M.
  rewrite H. by rewrite bool_decide_eq_false_2.
Qed.

Lemma operator_index_absent w name :
  named_ (graph w) !! name = None →
  operator_index name w = Throws (NameNotFound name) w.
Proof.
  intros H. unfold operator_index, UTIL_THROW_IF2, map_find. unfold_M.
  rewrite H. by rewrite bool_decide_eq_true_2.
Qed.

Lemma has_node_returns w name :
  has_node name w = Returns (bool_decide (is_Some (named_ (graph w) !! name))) w.
Proof.
  unfold has_node, map_count. unfold_M. f_equal.
  destruct (named_ (graph w) !! name) as [e|].
  - rewrite !bool_decide_eq_true_2; eauto.
  - rewrite !bool_decide_eq_false_2; [done| |lia]. by intros [? ?].
Qed.

Lemma add_named_node_returns w e name :
  add_named_node e name w =
  Returns () {| graph := {| stack_ := stack_ (graph w);
                            named_ := map_emplace name e (named_ (graph w));
                            params_ := params_ (graph w);
                            inputs_ := inputs_ (graph w) |};
                heap := heap w; tensors := tensors w; calls := calls w |}.
Proof. reflexivity. Qed.

Lemma add_named_node_bound w e name e0 :
  named_ (graph w) !! name = Some e0 → add_named_node e name w = Returns () w.
Proof.
  intros H. rewrite add_named_node_returns, (map_emplace_bound _ _ _ _ H).
  by rewrite graph_eta, world_eta.
Qed.

(** *** What each member function does to the registry *)

Lemma ends_bind {A B} (m : M Tensors A) (k : A → M Tensors B) w w' :
  ends (m ≫= k) w w' →
  (∃ e, m w = Throws e w') ∨ ∃ a w1, m w = Returns a w1 ∧ ends (k a) w1 w'.
Proof.
  unfold ends. unfold_M. destruct (m w) as [a w1|e w1|]; intros [[x H]|[x H]];
    try discriminate.
  - right. exists a, w1. split; [done|]. left. by exists x.
  - right. exists a, w1. split; [done|]. right. by exists x.
  - inversion H; subst. left. by exists x.
Qed.

Lemma ends_discard {A} (m : M Tensors A) w w' :
  ends (discard m) w w' → ends m w w'.
Proof.
  intros H. apply ends_bind in H as [[e H]|(a & w1 & H & [[? H']|[? H']])].
  - right. eauto.
  - inversion H'; subst. left. eauto.
  - inversion H'.
Qed.

Lemma graphviz_loop_frame c (k : nat) ss w w' :
  ends (graphviz_loop dispatch fragment c k ss) w w' →
  graph w' = graph w ∧ heap w' = heap w.
Proof.
  revert ss w. induction k as [|k IH]; intros ss w; simpl.
  - intros [[? H]|[? H]]; inversion H; subst; auto.
  - destruct (c !! k) as [v|].
    + intros H. apply ends_bind in H as [[e H]|(a & w1 & H & H')].
      * unfold call_graphviz in H.
        destruct (dispatch (node_graphviz v) (tensors w)); inversion H; subst; auto.
      * apply IH in H' as [Hg Hh]. unfold call_graphviz in H.
        destruct (dispatch (node_graphviz v) (tensors w)); inversion H; subst; auto.
    + intros [[? H]|[? H]]; inversion H.
Qed.

Lemma graphviz_frame w w' :
  ends (graphviz dispatch fragment) w w' → graph w' = graph w ∧ heap w' = heap w.
Proof.
  unfold graphviz. intros H.
  apply ends_bind in H as [[e H]|(c & w1 & H & H')]; [inversion H|].
  inversion H; subst.
  apply ends_bind in H' as [[e H']|(ss & w2 & H' & H'')].
  - eapply graphviz_loop_frame. right. eauto.
  - destruct H'' as [[? H'']|[? H'']]; inversion H''; subst.
    eapply graphviz_loop_frame. left. eauto.
Qed.

Lemma invoke_named this (o : Op) w w' :
  ends (invoke dispatch fragment this o) w w' →
  named_ (graph w') =
  match o with
  | op_add_named_node e name => map_emplace name e (named_ (graph w))
  | _ => named_ (graph w)
  end.
Proof.
  destruct o; simpl; intros H; try apply ends_discard in H.
  - apply backprop_frame in H as [-> _]. done.
  - apply forward_frame in H as [-> _]. done.
  - apply backward_frame in H as [-> _]. done.
  - apply graphviz_frame in H as [-> _]. done.
  - destruct H as [[? H]|[? H]]; inversion H; subst; done.
  - destruct H as [[? H]|[? H]]; inversion H; subst; done.
  - destruct H as [[? H]|[? H]]; inversion H; subst; done.
  - destruct H as [[? H]|[? H]]; inversion H; subst; done.
  - destruct H as [[? H]|[? H]]; inversion H; subst; done.
  - destruct H as [[? H]|[? H]]; inversion H; subst; done.
  - destruct (named_ (graph w) !! name) as [e|] eqn:Hn.
    + unfold ends in H. rewrite (operator_index_bound _ _ _ Hn) in H.
      destruct H as [[? H]|[? H]]; inversion H; subst; done.
    + unfold ends in H. rewrite (operator_index_absent _ _ Hn) in H.
      destruct H as [[? H]|[? H]]; inversion H; subst; done.
  - unfold ends in H. rewrite has_node_returns in H.
    destruct H as [[? H]|[? H]]; inversion H; subst; done.
  - destruct H as [[? H]|[? H]]; inversion H; subst; done.
  - destruct H as [[? H]|[? H]]; inversion H; subst; done.
  - destruct H as [[? H]|[? H]]; inversion H; subst; done.
Qed.

Lemma run_keeps_binding this ops w w' name e :
  run dispatch fragment this ops w w' →
  named_ (graph w) !! name = Some e → named_ (graph w') !! name = Some e.
Proof.
  induction 1 as [w|o ops w w1 w2 Ho _ IH]; intros Hn; [done|].
  apply IH. rewrite (invoke_named _ _ _ _ Ho).
  destruct o; try done. by apply map_emplace_keeps.
Qed.

Lemma run_keeps_absent this ops w w' name :
  run dispatch fragment this ops w w' →
  (∀ e, op_add_named_node e name ∉ ops) →
  named_ (graph w) !! name = None → named_ (graph w') !! name = None.
Proof.
  induction 1 as [w|o ops w w1 w2 Ho _ IH]; intros Hops Hn; [done|].
  apply IH.
  - intros e He. apply (Hops e). by right.
  - rewrite (invoke_named _ _ _ _ Ho).
    destruct o; try done. rewrite map_emplace_other; [done|].
    intros ->. apply (Hops e). by left.
Qed.

(** *** Properties of the traversals *)

(** C1: on a graph with at least one node, whose stack is [c ++ [v]],
    [backward()] performs exactly the calls of [backward_sequence c v]:
    [set_zero_adjoint()] on every node of the stack, then
    [init_dependent()] on the last node [v], then [backward()] on every
    node in reverse construction order, [v] first. A run that returns has
    logged exactly these calls, and it returns whenever these calls do. *)
Theorem backward_call_sequence w c (v : ChainPtr) :
  stack_ (graph w) = c ++ [v] →
  backward dispatch w = perform dispatch (backward_sequence c v) w ∧
  (∀ w', backward dispatch w = Returns () w' →
         calls w' = calls w ++ backward_sequence c v) ∧
  ((∀ x t, x ∈ backward_sequence c v → is_Some (dispatch x t)) →
   ∃ w', backward dispatch w = Returns () w').
Proof.
  clear fragment. intros Hs. rewrite (backward_perform w c v Hs). split_and!.
  - reflexivity.
  - intros w' H. apply perform_returns in H. tauto.
  - apply perform_total.
Qed.

(** C2: [forward(b)] performs exactly the calls of [forward_sequence]:
    [allocate(b)] on every node in construction order, then [forward()] on
    every node in the same order. Whenever the run comes back, by returning
    or by an exception of a node, the calls logged are a prefix of that
    sequence, and a [forward()] in it comes after the [allocate(b)] of every
    node of the stack. The run never has undefined behaviour, and it returns
    whenever the calls do. *)
Theorem forward_two_passes (b : Z) w :
  forward dispatch b w = perform dispatch (forward_sequence b (stack_ (graph w))) w ∧
  (∀ w', forward dispatch b w = Returns () w' →
         calls w' = calls w ++ forward_sequence b (stack_ (graph w))) ∧
  (∀ w', ends (forward dispatch b) w w' →
     ∃ d, calls w' = calls w ++ d ∧
          d `prefix_of` forward_sequence b (stack_ (graph w)) ∧
          ∀ i v, d !! i = Some (node_forward v) →
            ∀ j u, stack_ (graph w) !! j = Some u →
                   j < i ∧ d !! j = Some (allocate u b)) ∧
  forward dispatch b w ≠ Undefined ∧
  ((∀ x t, x ∈ forward_sequence b (stack_ (graph w)) → is_Some (dispatch x t)) →
   ∃ w', forward dispatch b w = Returns () w').
Proof.
  unfold ends. rewrite forward_perform. set (c := stack_ (graph w)). split_and!.
  - reflexivity.
  - intros w' H. apply perform_returns in H. tauto.
  - intros w' Hends.
    assert (∃ d, calls w' = calls w ++ d ∧ d `prefix_of` forward_sequence b c)
      as (d & Hc & Hp).
    { destruct Hends as [[[] H]|[e H]].
      - apply perform_returns in H as (_ & _ & H). eauto.
      - apply perform_throws in H as (_ & _ & d & x & Hp & _ & H). eauto. }
    exists d. split_and!; [done..|].
    intros i v Hi j u Hj.
    assert (Hseq : forward_sequence b c !! i = Some (node_forward v))
      by (eapply prefix_lookup_Some; eauto).
    assert (Hlen : length ((λ v, allocate v b) <$> c) = length c)
      by apply length_fmap.
    assert (Hji : j < length c) by (eapply lookup_lt_Some; eauto).
    assert (Hge : length c ≤ i).
    { destruct (decide (i < length c)) as [Hlt|]; [|lia]. exfalso.
      unfold forward_sequence in Hseq.
      rewrite lookup_app_l in Hseq by lia.
      rewrite list_lookup_fmap in Hseq.
      destruct (c !! i); simpl in Hseq; congruence. }
    split; [lia|].
    assert (Hid : i < length d) by (eapply lookup_lt_Some; eauto).
    destruct Hp as [k Hk].
    assert (Hdj : (d ++ k) !! j = Some (allocate u b)).
    { rewrite <- Hk. unfold forward_sequence.
      rewrite lookup_app_l by lia. by rewrite list_lookup_fmap, Hj. }
    by rewrite lookup_app_l in Hdj by lia.
  - apply perform_defined.
  - apply perform_total.
Qed.

(** C3: [backprop(b)] is [forward(b)] followed by [backward()], and nothing
    else: the two runs agree in every outcome; however [backprop(b)] comes
    back, the fields of the graph and the node objects are as before; and on
    a stack [c ++ [v]] its calls are those of [forward(b)] followed by those
    of [backward()]. *)
Theorem backprop_forward_then_backward (b : Z) w :
  backprop dispatch b w = forward_then_backward dispatch b w ∧
  (∀ w', ends (backprop dispatch b) w w' → graph w' = graph w ∧ heap w' = heap w) ∧
  (∀ c (v : ChainPtr), stack_ (graph w) = c ++ [v] →
     backprop dispatch b w =
     perform dispatch (forward_sequence b (c ++ [v]) ++ backward_sequence c v) w).
Proof.
  split_and!.
  - reflexivity.
  - apply backprop_frame.
  - intros c v Hs. rewrite perform_app. unfold backprop. unfold_M.
    rewrite forward_perform, Hs.
    destruct (perform dispatch _ w) as [[] w1|e w1|] eqn:H1; auto.
    apply perform_returns in H1 as (Hg & _ & _).
    apply backward_perform. congruence.
Qed.

(** C5: on a graph with no node, [backward()] takes no defined defensive
    path: [stack_->back()] is evaluated on the empty vector, which is
    undefined behaviour; the call neither returns nor throws. *)
Theorem backward_empty_graph_undefined w :
  stack_ (graph w) = [] →
  backward dispatch w = Undefined ∧ ¬ ∃ w', ends (backward dispatch) w w'.
Proof.
  intros Hs. pose proof (backward_nil w Hs) as Hu. split; [done|].
  intros [w' [[a H]|[e H]]]; congruence.
Qed.

(** *** Properties of the registry *)

(** C4, as the code has it: when the registry already binds [name],
    [add_named_node(e, name)] returns and changes nothing at all. The
    earlier entry is neither evicted nor replaced, and no entry is added:
    the registry has the size it had, and [e] is bound to [name] afterwards
    only if it was the handle bound before. *)
Theorem add_named_node_bound_is_noop w (e : Expr) name e0 :
  binds w name e0 →
  add_named_node e name w = Returns () w ∧
  ∀ w1, add_named_node e name w = Returns () w1 →
        named_ (graph w1) = named_ (graph w) ∧
        binds w1 name e0 ∧
        size (named_ (graph w1)) = size (named_ (graph w)) ∧
        (binds w1 name e → e = e0).
Proof.
  unfold binds. intros Hb. pose proof (add_named_node_bound w e name e0 Hb) as Hr.
  split; [done|]. intros w1 H1. rewrite Hr in H1. inversion H1; subst.
  split_and!; try done. congruence.
Qed.

(** C6: [operator[](name)] throws if and only if [name] is absent from the
    registry, and what it then throws is the NameNotFound exception, with
    the graph untouched; when [name] is present it returns the stored
    handle. [has_node(name)] always returns, and returns [true] exactly
    when [name] is present. *)
Theorem lookup_fails_iff_absent w name :
  ((∃ x w', operator_index name w = Throws x w') ↔ named_ (graph w) !! name = None) ∧
  (named_ (graph w) !! name = None →
   operator_index name w = Throws (NameNotFound name) w) ∧
  (∀ e, named_ (graph w) !! name = Some e ↔ operator_index name w = Returns e w) ∧
  ∃ r, has_node name w = Returns r w ∧
       (r = true ↔ is_Some (named_ (graph w) !! name)).
Proof.
  split_and!.
  - split.
    + intros (x & w' & H). destruct (named_ (graph w) !! name) as [e|] eqn:Hn; [|done].
      rewrite (operator_index_bound _ _ _ Hn) in H. discriminate.
    + intros Hn. rewrite (operator_index_absent _ _ Hn). eauto.
  - apply operator_index_absent.
  - intros e. split; [apply operator_index_bound|].
    destruct (named_ (graph w) !! name) as [e'|] eqn:Hn.
    + rewrite (operator_index_bound _ _ _ Hn). congruence.
    + rewrite (operator_index_absent _ _ Hn). discriminate.
  - eexists. split; [apply has_node_returns|]. apply bool_decide_eq_true.
Qed.

(** C7, as the code has it: when [name] is not yet bound,
    [add_named_node(h, name)] followed by [operator[](name)] returns the
    handle [h], which holds the node of [h]. For a name [missing] that no
    call has registered on a graph whose registry started empty,
    [has_node] returns [false] and [operator[]] throws NameNotFound. *)
Theorem named_round_trip w (h : Expr) name :
  (named_ (graph w) !! name = None →
   round_trip w h name ∧
   ∃ w1, add_named_node h name w = Returns () w1 ∧
         operator_index name w1 = Returns h w1) ∧
  (∀ this ops w0 missing,
     named_ (graph w0) = ∅ →
     run dispatch fragment this ops w0 w →
     (∀ e, op_add_named_node e missing ∉ ops) →
     has_node missing w = Returns false w ∧
     operator_index missing w = Throws (NameNotFound missing) w).
Proof.
  split.
  - intros Hn.
    assert (Hl : ∃ w1, add_named_node h name w = Returns () w1 ∧
                       operator_index name w1 = Returns h w1).
    { eexists. split; [apply add_named_node_returns|].
      apply operator_index_bound. simpl.
      rewrite (map_emplace_free _ _ _ Hn). apply lookup_insert_eq. }
    split; [|done]. destruct Hl as (w1 & Ha & Hi). by exists w1, h.
  - intros this ops w0 missing H0 Hrun Hops.
    assert (Hm : named_ (graph w) !! missing = None).
    { eapply run_keeps_absent; eauto. by rewrite H0. }
    split; [|by apply operator_index_absent].
    rewrite has_node_returns, Hm. f_equal.
Qed.

Lemma operator_index_ref_bound w name e :
  named_ (graph w) !! name = Some e →
  operator_index_ref name w = Returns (named_entry name) w.
Proof.
  intros H. unfold operator_index_ref, UTIL_THROW_IF2, map_find. unfold_M.
  rewrite H. by rewrite bool_decide_eq_false_2.
Qed.

Lemma assign_through_index_bound w name (e h : Expr) :
  named_ (graph w) !! name = Some e →
  assign_through_index name h w =
  Returns () {| graph := {| stack_ := stack_ (graph w);
                            named_ := <[name:=h]> (named_ (graph w));
                            params_ := params_ (graph w);
                            inputs_ := inputs_ (graph w) |};
                heap := heap w; tensors := tensors w; calls := calls w |}.
Proof.
  intros H. unfold assign_through_index. unfold_M.
  rewrite (operator_index_ref_bound _ _ _ H).
  unfold Expr_copy_assign. unfold_M. by rewrite H.
Qed.

(** C10, as the code has it: first writer wins among the member functions.
    A name that is bound stays bound to the same handle through every
    sequence of member-function calls, and [operator[]] keeps returning that
    handle; so after the first registration of an unbound name, whatever
    member function is called next, further registrations under that name
    included, the lookup returns the handle of the first registration. The
    binding is not immutable: [operator[]] returns a reference to the stored
    handle, through which the handle reads as bound and an assignment
    [graph[name] = h] of a caller rebinds the name to [h]. *)
Theorem first_registration_wins this ops w w' name (e : Expr) :
  (binds w name e →
   run dispatch fragment this ops w w' →
   binds w' name e ∧ operator_index name w' = Returns e w') ∧
  (named_ (graph w) !! name = None →
   run dispatch fragment this (op_add_named_node e name :: ops) w w' →
   binds w' name e ∧ operator_index name w' = Returns e w') ∧
  (binds w name e →
   (r ← operator_index_ref name; Expr_read r) w = Returns e w ∧
   ∀ h, ∃ w1, assign_through_index name h w = Returns () w1 ∧
              binds w1 name h ∧ operator_index name w1 = Returns h w1).
Proof.
  unfold binds.
  assert (Hkeep : ∀ w1, named_ (graph w1) !! name = Some e →
                        run dispatch fragment this ops w1 w' →
                        named_ (graph w') !! name = Some e ∧
                        operator_index name w' = Returns e w').
  { intros w1 Hb Hrun. pose proof (run_keeps_binding _ _ _ _ _ _ Hrun Hb) as Hb'.
    split; [done|]. by apply operator_index_bound. }
  split_and!; [apply Hkeep| |].
  - intros Hn Hrun. inversion Hrun as [|o ops' w0 w1 w2 Ho Hrest]; subst.
    apply (Hkeep w1); [|done].
    rewrite (invoke_named _ _ _ _ Ho), (map_emplace_free _ _ _ Hn).
    apply lookup_insert_eq.
  - intros Hb. split.
    + unfold_M. rewrite (operator_index_ref_bound _ _ _ Hb).
      unfold Expr_read. unfold_M. by rewrite Hb.
    + intros h. eexists. split; [by apply (assign_through_index_bound _ _ e)|].
      assert (Hh : <[name:=h]> (named_ (graph w)) !! name = Some h)
        by apply lookup_insert_eq.
      split; [exact Hh|]. by apply operator_index_bound.
Qed.

(** *** Properties of node construction *)

Lemma new_returns (n : Chainable) w :
  new n w = Returns (fresh (dom (heap w)))
              {| graph := graph w; heap := <[fresh (dom (heap w)):=n]> (heap w);
                 tensors := tensors w; calls := calls w |}.
Proof. reflexivity. Qed.

Lemma fresh_address_free w : heap w !! fresh (dom (heap w)) = None.
Proof. apply not_elem_of_dom, is_fresh. Qed.

Lemma insert_fresh_keeps (n : Chainable) w w1 :
  heap w1 = <[fresh (dom (heap w)):=n]> (heap w) → keeps_dependencies w w1.
Proof.
  intros Hh p [x Hp].
  assert (Hl : heap w1 !! p = heap w !! p).
  { rewrite Hh. apply lookup_insert_ne. intros Heq.
    pose proof (fresh_address_free w) as Hf. rewrite Heq in Hf. congruence. }
  split; [done|]. unfold dependency_list. by rewrite Hl.
Qed.

(** C8: [input(...)] appends the handle it returns to the input list and
    leaves the parameter list alone; [param(...)] appends the handle it
    returns to the parameter list and leaves the input list alone;
    [constant], [ones] and [zeroes] leave both lists alone. Each of the five
    calls returns, and every node that existed before is the same object
    with the same dependency list afterwards. *)
Theorem construction_lists this (args : list Keyword) w :
  (∃ e w1, input this args w = Returns e w1 ∧
           inputs_ (graph w1) = inputs_ (graph w) ++ [e] ∧
           params_ (graph w1) = params_ (graph w) ∧
           keeps_dependencies w w1) ∧
  (∃ e w1, param this args w = Returns e w1 ∧
           params_ (graph w1) = params_ (graph w) ++ [e] ∧
           inputs_ (graph w1) = inputs_ (graph w) ∧
           keeps_dependencies w w1) ∧
  (∃ e w1, constant this args w = Returns e w1 ∧
           inputs_ (graph w1) = inputs_ (graph w) ∧
           params_ (graph w1) = params_ (graph w) ∧
           keeps_dependencies w w1) ∧
  (∃ e w1, ones this args w = Returns e w1 ∧
           inputs_ (graph w1) = inputs_ (graph w) ∧
           params_ (graph w1) = params_ (graph w) ∧
           keeps_dependencies w w1) ∧
  (∃ e w1, zeroes this args w = Returns e w1 ∧
           inputs_ (graph w1) = inputs_ (graph w) ∧
           params_ (graph w1) = params_ (graph w) ∧
           keeps_dependencies w w1).
Proof.
  split_and!; eexists _, _; (split; [reflexivity|]); simpl;
    (split_and!; [reflexivity..|]); by eapply insert_fresh_keeps.
Qed.

(** C9: [ones(...)] returns a handle of this graph on a newly made
    [ConstantNode] whose constructor received [keywords::value=1] ahead of
    the caller's arguments, and [zeroes(...)] one that received
    [keywords::value=0]: they are [constant] with the value keyword put
    first. *)
Theorem ones_zeroes_value this (args : list Keyword) w :
  (∃ e w1, ones this args w = Returns e w1 ∧
           graph_ e = this ∧
           heap w !! pimpl_ e = None ∧
           heap w1 !! pimpl_ e = Some (ConstantNode (value 1 :: args)) ∧
           stack_ (graph w1) = stack_ (graph w) ++ [pimpl_ e]) ∧
  (∃ e w1, zeroes this args w = Returns e w1 ∧
           graph_ e = this ∧
           heap w !! pimpl_ e = None ∧
           heap w1 !! pimpl_ e = Some (ConstantNode (value 0 :: args)) ∧
           stack_ (graph w1) = stack_ (graph w) ++ [pimpl_ e]) ∧
  ones this args w = constant this (value 1 :: args) w ∧
  zeroes this args w = constant this (value 0 :: args) w.
Proof.
  split_and!; try reflexivity;
    eexists _, _; (split; [reflexivity|]); simpl;
    (split_and!; [reflexivity | apply fresh_address_free
                 | apply lookup_insert_eq | reflexivity]).
Qed.

End Properties.

(** ** The properties on sample graphs *)

Local Open Scope positive_scope.

Example backward_three_nodes :
  ∃ w', backward counting_dispatch three_nodes = Returns () w' ∧
        tensors w' = 7%nat ∧
        calls w' = [set_zero_adjoint 1; set_zero_adjoint 2; set_zero_adjoint 3;
                    init_dependent 3;
                    node_backward 3; node_backward 2; node_backward 1].
Proof. eexists. split; [vm_compute; reflexivity|]. split; reflexivity. Qed.

Example forward_throws_midway :
  ∃ w', forward strict_dispatch 0 three_nodes =
          Throws (node_exception (allocate 1 0)) w' ∧
        calls w' = [allocate 1 0].
Proof. eexists. split; [vm_compute; reflexivity|]. reflexivity. Qed.

Example input_on_three_nodes :
  ∃ w', input 1 [] three_nodes = Returns (mkExpr 1 4) w' ∧
        stack_ (graph w') = [1; 2; 3; 4] ∧
        inputs_ (graph w') = [mkExpr 1 4] ∧
        heap w' !! 4 = Some (InputNode []).
Proof.
  eexists. split; [vm_compute; reflexivity|]. split_and!; reflexivity.
Qed.

Lemma backward_call_sequence_witness :
  stack_ (graph three_nodes) = ([1; 2] ++ [3])%list ∧
  ∃ w', backward counting_dispatch three_nodes = Returns () w' ∧
        calls w' = [set_zero_adjoint 1; set_zero_adjoint 2; set_zero_adjoint 3;
                    init_dependent 3;
                    node_backward 3; node_backward 2; node_backward 1].
Proof.
  split; [reflexivity|].
  destruct (backward_call_sequence counting_dispatch three_nodes [1; 2] 3 eq_refl)
    as (_ & Hlog & Hret).
  destruct Hret as [w' Hw'].
  - intros x t _. exists (S t). reflexivity.
  - exists w'. split; [exact Hw'|]. exact (Hlog w' Hw').
Defined.

Lemma forward_two_passes_witness :
  forward strict_dispatch 0 three_nodes =
  perform strict_dispatch
    [allocate 1 0; allocate 2 0; allocate 3 0;
     node_forward 1; node_forward 2; node_forward 3] three_nodes.
Proof. exact (proj1 (forward_two_passes strict_dispatch 0 three_nodes)). Defined.

Lemma backprop_forward_then_backward_witness :
  backprop counting_dispatch 2 three_nodes =
  forward_then_backward counting_dispatch 2 three_nodes.
Proof.
  exact (proj1 (backprop_forward_then_backward counting_dispatch 2 three_nodes)).
Defined.

Lemma backward_empty_graph_undefined_witness :
  stack_ (graph fresh_world) = [] ∧
  backward counting_dispatch fresh_world = Undefined.
Proof.
  split; [reflexivity|].
  exact (proj1 (backward_empty_graph_undefined counting_dispatch fresh_world eq_refl)).
Defined.

(** C4, as stated, fails: in [three_nodes] the name "w" is bound to a
    handle on node 1, and after [add_named_node] of a handle on node 2 under
    "w" the registry does not hold both entries. *)
Lemma registers_alias_fails :
  ¬ registers_alias three_nodes (mkExpr 1 2) "w".
Proof.
  intros H. destruct (H (mkExpr 1 1)) as (w1 & Ha & H1 & H2); [reflexivity|].
  rewrite (add_named_node_bound three_nodes (mkExpr 1 2) "w" (mkExpr 1 1)) in Ha
    by reflexivity.
  inversion Ha; subst. unfold binds in H2.
  assert (Hw : named_ (graph three_nodes) !! "w" = Some (mkExpr 1 1)) by reflexivity.
  rewrite Hw in H2. discriminate.
Qed.

Lemma add_named_node_bound_is_noop_witness :
  binds three_nodes "w" (mkExpr 1 1) ∧
  add_named_node (mkExpr 1 2) "w" three_nodes = Returns () three_nodes.
Proof.
  split; [reflexivity|].
  exact (proj1 (add_named_node_bound_is_noop three_nodes (mkExpr 1 2) "w" (mkExpr 1 1)
                  eq_refl)).
Defined.

Lemma lookup_fails_iff_absent_witness :
  operator_index "missing" three_nodes = Throws (NameNotFound "missing") three_nodes.
Proof.
  destruct (lookup_fails_iff_absent three_nodes "missing") as (_ & H & _).
  apply H. reflexivity.
Defined.

(** C7, as stated, fails: in [three_nodes] the name "w" is bound to a
    handle on node 1, and [add_named_node] of a handle on node 2 under "w"
    followed by the lookup of "w" gives the handle on node 1. *)
Lemma round_trip_fails_on_bound_name :
  ¬ round_trip three_nodes (mkExpr 1 2) "w".
Proof.
  intros (w1 & e & Ha & Hi & He).
  rewrite (add_named_node_bound three_nodes (mkExpr 1 2) "w" (mkExpr 1 1)) in Ha
    by reflexivity.
  inversion Ha; subst.
  rewrite (operator_index_bound three_nodes "w" (mkExpr 1 1)) in Hi by reflexivity.
  inversion Hi; subst. discriminate.
Qed.

Lemma named_round_trip_witness :
  named_ (graph named_world) !! "v" = None ∧
  round_trip named_world (mkExpr 1 2) "v" ∧
  has_node "missing" named_world = Returns false named_world ∧
  operator_index "missing" named_world =
    Throws (NameNotFound "missing") named_world.
Proof.
  split; [reflexivity|].
  destruct (named_round_trip counting_dispatch no_fragment named_world (mkExpr 1 2) "v")
    as (Hrt & Hmiss).
  split; [exact (proj1 (Hrt eq_refl))|].
  apply (Hmiss 1 [op_add_named_node (mkExpr 1 1) "w"] fresh_world "missing").
  - reflexivity.
  - eapply run_cons; [|apply run_nil]. left. exists (). reflexivity.
  - intros e He. apply list_elem_of_singleton in He. discriminate.
Defined.

(** C10, as stated, fails: in [named_world] the name "w" is bound to a
    handle on node 1; a caller registers a handle on node 2 under "w" and
    assigns that handle through the reference [operator[]] returns, and the
    lookup of "w" then gives the handle on node 2. *)
Lemma binding_immutable_fails :
  ¬ binding_immutable counting_dispatch no_fragment 1 named_world "w" (mkExpr 1 1).
Proof.
  intros H.
  assert (Hrun : caller_run counting_dispatch no_fragment 1
            [call_member (op_add_named_node (mkExpr 1 2) "w");
             assign_entry "w" (mkExpr 1 2)]
            named_world
            {| graph := {| stack_ := []; named_ := {[ "w" := mkExpr 1 2 ]};
                           params_ := []; inputs_ := [] |};
               heap := ∅; tensors := 0%nat; calls := [] |}).
  { eapply caller_run_cons; [left; exists (); vm_compute; reflexivity|].
    eapply caller_run_cons; [left; exists (); vm_compute; reflexivity|].
    apply caller_run_nil. }
  specialize (H eq_refl _ _ Hrun).
  rewrite (operator_index_bound _ "w" (mkExpr 1 2)) in H by reflexivity.
  inversion H.
Qed.

Lemma first_registration_wins_witness :
  (binds three_nodes "w" (mkExpr 1 1) ∧
   run counting_dispatch no_fragment 1
     [op_add_named_node (mkExpr 1 2) "w"; op_forward 2; op_has_node "w"]
     three_nodes
     {| graph := graph three_nodes; heap := heap three_nodes; tensors := 6%nat;
        calls := forward_sequence 2 [1; 2; 3] |} ∧
   operator_index "w"
     {| graph := graph three_nodes; heap := heap three_nodes; tensors := 6%nat;
        calls := forward_sequence 2 [1; 2; 3] |} =
   Returns (mkExpr 1 1)
     {| graph := graph three_nodes; heap := heap three_nodes; tensors := 6%nat;
        calls := forward_sequence 2 [1; 2; 3] |}) ∧
  (named_ (graph fresh_world) !! "w" = None ∧
   run counting_dispatch no_fragment 1
     [op_add_named_node (mkExpr 1 1) "w"; op_add_named_node (mkExpr 1 2) "w"]
     fresh_world named_world ∧
   operator_index "w" named_world = Returns (mkExpr 1 1) named_world) ∧
  (binds named_world "w" (mkExpr 1 1) ∧
   ∃ w1, assign_through_index "w" (mkExpr 1 2) named_world = Returns () w1 ∧
         binds w1 "w" (mkExpr 1 2) ∧
         operator_index "w" w1 = Returns (mkExpr 1 2) w1).
Proof.
  assert (Hrun : run counting_dispatch no_fragment 1
    [op_add_named_node (mkExpr 1 2) "w"; op_forward 2; op_has_node "w"]
    three_nodes
    {| graph := graph three_nodes; heap := heap three_nodes; tensors := 6%nat;
       calls := forward_sequence 2 [1; 2; 3] |}).
  { eapply run_cons; [left; exists (); reflexivity|].
    eapply run_cons; [left; exists (); reflexivity|].
    eapply run_cons; [left; exists (); reflexivity|].
    apply run_nil. }
  assert (Hrun2 : run counting_dispatch no_fragment 1
    [op_add_named_node (mkExpr 1 1) "w"; op_add_named_node (mkExpr 1 2) "w"]
    fresh_world named_world).
  { eapply run_cons; [left; exists (); reflexivity|].
    eapply run_cons; [left; exists (); reflexivity|].
    apply run_nil. }
  split; [|split].
  - split; [reflexivity|]. split; [exact Hrun|].
    exact (proj2 (proj1 (first_registration_wins counting_dispatch no_fragment 1 _
                           three_nodes _ "w" (mkExpr 1 1)) eq_refl Hrun)).
  - split; [reflexivity|]. split; [exact Hrun2|].
    exact (proj2 (proj1 (proj2 (first_registration_wins counting_dispatch no_fragment
                                  1 _ fresh_world _ "w" (mkExpr 1 1))) eq_refl Hrun2)).
  - split; [reflexivity|].
    exact (proj2 (proj2 (proj2 (first_registration_wins counting_dispatch no_fragment
                                  1 [] named_world named_world "w" (mkExpr 1 1)))
                    eq_refl) (mkExpr 1 2)).
Defined.

Lemma construction_lists_witness :
  ∃ e w1, input 1 [keyword "shape" 3] three_nodes = Returns e w1 ∧
          inputs_ (graph w1) = (inputs_ (graph three_nodes) ++ [e])%list ∧
          params_ (graph w1) = params_ (graph three_nodes) ∧
          keeps_dependencies three_nodes w1.
Proof. exact (proj1 (construction_lists 1 [keyword "shape" 3] three_nodes)). Defined.

Lemma ones_zeroes_value_witness :
  ones 1 [keyword "shape" 3] three_nodes =
  constant 1 [value 1; keyword "shape" 3] three_nodes.
Proof.
  destruct (ones_zeroes_value 1 [keyword "shape" 3] three_nodes) as (_ & _ & H & _).
  exact H.
Defined.

(** ** Further properties of the member functions *)

Local Close Scope positive_scope.

Section Further.

Context {Tensors : Type}.
Variable dispatch : Call → Tensors → option Tensors.
Variable fragment : ChainPtr → Tensors → string.

Implicit Types (w : World Tensors) (c : list ChainPtr) (cs : list Call).

Ltac unfold_M :=
  unfold mbind, M_bind, mret, M_ret, throw, undefined, get_graph, set_graph in *.

Ltac ends_inv H :=
  destruct H as [[? H]|[? H]]; inversion H; subst; clear H.

(** *** Text *)

Lemma append_nil_r (s : string) : s +:+ "" = s.
Proof.
  induction s as [|a s IH]; [done|].
  change (String a (s +:+ "") = String a s). by rewrite IH.
Qed.

Lemma append_assoc (s1 s2 s3 : string) : (s1 +:+ s2) +:+ s3 = s1 +:+ s2 +:+ s3.
Proof.
  induction s1 as [|a s1 IH]; [done|].
  change (String a ((s1 +:+ s2) +:+ s3) = String a (s1 +:+ s2 +:+ s3)).
  by rewrite IH.
Qed.

(** *** What each call does to the graph and to the node objects *)

Lemma invoke_graph_heap this (o : Op) w w' :
  ends (invoke dispatch fragment this o) w w' →
  graph w' = graph_after this o (heap w) (graph w) ∧
  heap w' = heap_after o (heap w).
Proof.
  destruct o; simpl; intros H; try apply ends_discard in H.
  - by apply backprop_frame in H.
  - by apply forward_frame in H.
  - by apply backward_frame in H.
  - by apply graphviz_frame in H.
  - ends_inv H. done.
  - ends_inv H. done.
  - ends_inv H. done.
  - ends_inv H. done.
  - ends_inv H. done.
  - ends_inv H. done.
  - unfold ends in H. destruct (named_ (graph w) !! name) as [e|] eqn:Hn.
    + rewrite (operator_index_bound _ _ _ Hn) in H. ends_inv H. done.
    + rewrite (operator_index_absent _ _ Hn) in H. ends_inv H. done.
  - unfold ends in H. rewrite has_node_returns in H. ends_inv H. done.
  - ends_inv H. done.
  - ends_inv H. done.
  - ends_inv H. done.
Qed.


Lemma graph_after_stack this (o : Op) h (g : ExpressionGraph) n :
  constructs o = Some n →
  stack_ (graph_after this o h g) = stack_ g ++ [fresh (dom h)].
Proof. destruct o; simpl; try discriminate; done. Qed.

(** *** The rendering *)

Lemma graphviz_loop_perform c (k : nat) (ss : string) w :
  k ≤ length c →
  match graphviz_loop dispatch fragment c k ss w with
  | Returns s w' =>
      perform dispatch (node_graphviz <$> reverse (take k c)) w = Returns () w' ∧
      s = ss +:+ fragments_along dispatch fragment (reverse (take k c)) (tensors w)
  | Throws e w' =>
      perform dispatch (node_graphviz <$> reverse (take k c)) w = Throws e w'
  | Undefined => False
  end.
Proof.
  revert ss w. induction k as [|k IH]; intros ss w Hk.
  - simpl. by rewrite append_nil_r.
  - destruct (lookup_lt_is_Some_2 c k) as [x Hx]; [lia|].
    erewrite (take_S_r c k x) by done. rewrite reverse_snoc.
    simpl graphviz_loop. rewrite Hx. unfold perform. simpl. unfold_M.
    unfold call_graphviz, call.
    destruct (dispatch (node_graphviz x) (tensors w)) as [t|] eqn:Hd; [|done].
    specialize (IH (ss +:+ fragment x (tensors w))
      {| graph := graph w; heap := heap w; tensors := t;
         calls := calls w ++ [node_graphviz x] |}).
    destruct (graphviz_loop dispatch fragment c k _ _) as [s w'|e w'|];
      [|apply IH; lia|apply IH; lia].
    destruct IH as [Hp ->]; [lia|]. split; [exact Hp|].
    simpl. by rewrite append_assoc.
Qed.

Lemma graphviz_perform w :
  match graphviz dispatch fragment w with
  | Returns s w' =>
      perform dispatch (node_graphviz <$> reverse (stack_ (graph w))) w = Returns () w' ∧
      s = ("digraph ExpressionGraph {" +:+ endl +:+ "rankdir=BT" +:+ endl) +:+
          fragments_along dispatch fragment (reverse (stack_ (graph w))) (tensors w) +:+
          "}" +:+ endl
  | Throws e w' =>
      perform dispatch (node_graphviz <$> reverse (stack_ (graph w))) w = Throws e w'
  | Undefined => False
  end.
Proof.
  unfold graphviz. unfold_M. rewrite stack_returns.
  pose proof (graphviz_loop_perform (stack_ (graph w)) (length (stack_ (graph w)))
                ("digraph ExpressionGraph {" +:+ endl +:+ "rankdir=BT" +:+ endl) w
                (le_n _)) as H.
  rewrite firstn_all in H.
  destruct (graphviz_loop dispatch fragment _ _ _ w) as [s w'|e w'|]; [|done..].
  destruct H as [Hp ->]. split; [done|]. by rewrite !append_assoc.
Qed.

Lemma fragments_along_pure c (t : Tensors) :
  (∀ v t', dispatch (node_graphviz v) t' = Some t') →
  fragments_along dispatch fragment c t = fragments (λ v, fragment v t) c.
Proof.
  intros Hpure. induction c as [|v c IH]; simpl; [done|].
  by rewrite Hpure, IH.
Qed.

(** X1: [graphviz()] asks every node of the stack once, from the last
    constructed to the first. It never has undefined behaviour. When it
    returns, it has performed exactly these calls, the graph and the node
    objects are as before, and its text is the two header lines, then the
    fragments the nodes returned in that order, then the closing line. When
    a node's [graphviz()] throws it stops there with that exception. It
    returns whenever these calls do; and over nodes whose [graphviz()]
    leaves the tensors alone, the text is [graphviz_text] and the tensors
    are as before. *)
Theorem graphviz_reverse_order w :
  graphviz dispatch fragment w ≠ Undefined ∧
  (∀ s w', graphviz dispatch fragment w = Returns s w' →
     perform dispatch (node_graphviz <$> reverse (stack_ (graph w))) w = Returns () w' ∧
     calls w' = calls w ++ (node_graphviz <$> reverse (stack_ (graph w))) ∧
     graph w' = graph w ∧ heap w' = heap w ∧
     s = ("digraph ExpressionGraph {" +:+ endl +:+ "rankdir=BT" +:+ endl) +:+
         fragments_along dispatch fragment (reverse (stack_ (graph w))) (tensors w) +:+
         "}" +:+ endl) ∧
  (∀ e w', graphviz dispatch fragment w = Throws e w' →
     perform dispatch (node_graphviz <$> reverse (stack_ (graph w))) w = Throws e w') ∧
  ((∀ x t, x ∈ node_graphviz <$> reverse (stack_ (graph w)) → is_Some (dispatch x t)) →
   ∃ s w', graphviz dispatch fragment w = Returns s w') ∧
  ((∀ v t, dispatch (node_graphviz v) t = Some t) →
   graphviz dispatch fragment w =
   Returns (graphviz_text (λ v, fragment v (tensors w)) (stack_ (graph w)))
     {| graph := graph w; heap := heap w; tensors := tensors w;
        calls := calls w ++ (node_graphviz <$> reverse (stack_ (graph w))) |}).
Proof.
  pose proof (graphviz_perform w) as H.
  destruct (graphviz dispatch fragment w) as [s w'|e w'|] eqn:Hg; [| |done].
  - destruct H as [Hp Hs]. split_and!.
    + discriminate.
    + intros s0 w0 Heq. inversion Heq; subst s0 w0.
      destruct (perform_returns _ _ _ _ Hp) as (Hgr & Hh & Hc). done.
    + discriminate.
    + eauto.
    + intros Hpure. f_equal.
      * rewrite Hs. unfold graphviz_text. by rewrite fragments_along_pure.
      * assert (Ht : ∀ cs w1 w2, perform dispatch cs w1 = Returns () w2 →
                  (∀ x, x ∈ cs → ∃ v, x = node_graphviz v) → tensors w2 = tensors w1).
        { clear -Hpure. unfold perform. induction cs as [|x cs IH]; intros w1 w2; simpl.
          - intros H _. inversion H. done.
          - intros H Hcs. destruct (Hcs x) as [v ->]; [by left|].
            unfold_M. unfold call at 1 in H. rewrite Hpure in H.
            apply IH in H; [by rewrite H|]. intros y Hy. apply Hcs. by right. }
        destruct (perform_returns _ _ _ _ Hp) as (Hgr & Hh & Hc).
        destruct w' as [g' h' t' c']. simpl in *. subst. f_equal.
        apply (Ht _ _ _ Hp). intros x Hx.
        apply list_elem_of_fmap in Hx as (v & -> & _). eauto.
  - split_and!.
    + discriminate.
    + discriminate.
    + intros e0 w0 Heq. inversion Heq; subst. done.
    + intros Hall. destruct (perform_total dispatch _ w Hall) as [w0 Hw0].
      rewrite Hw0 in H. discriminate.
    + intros Hpure.
      destruct (perform_total dispatch (node_graphviz <$> reverse (stack_ (graph w))) w)
        as [w0 Hw0]; [|rewrite Hw0 in H; discriminate].
      intros x t Hx. apply list_elem_of_fmap in Hx as (v & -> & _).
      rewrite Hpure. eauto.
Qed.

(** X2: on a graph with no node, [graphviz()] returns the header and the
    closing line alone, calls no node and leaves everything as it was. *)
Theorem graphviz_empty_graph w :
  stack_ (graph w) = [] →
  graphviz dispatch fragment w =
  Returns ("digraph ExpressionGraph {" +:+ endl +:+ "rankdir=BT" +:+ endl +:+
           "}" +:+ endl) w.
Proof.
  intros Hs. unfold graphviz. unfold_M. rewrite stack_returns, Hs. simpl.
  unfold_M. by rewrite !append_assoc.
Qed.

(** *** The traversals on an empty graph and on failing nodes *)

Lemma forward_nil (b : Z) w :
  stack_ (graph w) = [] → forward dispatch b w = Returns () w.
Proof. intros Hs. rewrite forward_perform, Hs. reflexivity. Qed.

Lemma backprop_nil (b : Z) w :
  stack_ (graph w) = [] → backprop dispatch b w = Undefined.
Proof.
  intros Hs. unfold backprop. unfold_M. rewrite (forward_nil b w Hs).
  by apply backward_nil.
Qed.

Lemma backprop_perform (b : Z) w c (v : ChainPtr) :
  stack_ (graph w) = c ++ [v] →
  backprop dispatch b w =
  perform dispatch (forward_sequence b (c ++ [v]) ++ backward_sequence c v) w.
Proof.
  intros Hs. rewrite perform_app. unfold backprop. unfold_M.
  rewrite forward_perform, Hs.
  destruct (perform dispatch _ w) as [[] w1|e w1|] eqn:H1; auto.
  apply perform_returns in H1 as (Hg & _ & _).
  apply backward_perform. congruence.
Qed.

Lemma stack_cases w :
  stack_ (graph w) = [] ∨ ∃ c (v : ChainPtr), stack_ (graph w) = c ++ [v].
Proof.
  destruct (stack_ (graph w)) as [|x l] using rev_ind; [by left|].
  right. by exists l, x.
Qed.

(** X3: on a graph with no node, [backprop(b)] has undefined behaviour for
    every batch size: its forward pass returns without a call, and its
    backward pass evaluates [stack_->back()] on the empty vector. It
    neither returns nor throws. *)
Theorem backprop_empty_graph_undefined (b : Z) w :
  stack_ (graph w) = [] →
  backprop dispatch b w = Undefined ∧
  forward dispatch b w = Returns () w ∧
  ¬ ∃ w', ends (backprop dispatch b) w w'.
Proof.
  intros Hs. pose proof (backprop_nil b w Hs) as Hu.
  split_and!; [done|by apply forward_nil|].
  intros [w' [[a H]|[e H]]]; congruence.
Qed.

(** X4: [backprop(b)] stops at the first node call that throws. When it
    throws, the graph has a node, the exception is the one of the call
    logged last, the calls logged are the start of the calls of
    [forward(b)] followed by those of [backward()], and the graph and the
    node objects are as before. In particular an exception out of the
    forward pass is the outcome of [backprop(b)], in the same state, before
    any call of the backward pass. *)
Theorem backprop_stops_at_first_failure (b : Z) w w' e :
  backprop dispatch b w = Throws e w' →
  (∃ c (v : ChainPtr) d x,
     stack_ (graph w) = c ++ [v] ∧ e = node_exception x ∧
     d ++ [x] `prefix_of` forward_sequence b (c ++ [v]) ++ backward_sequence c v ∧
     calls w' = calls w ++ d ++ [x] ∧
     graph w' = graph w ∧ heap w' = heap w) ∧
  (∀ e1 w1, forward dispatch b w = Throws e1 w1 → e1 = e ∧ w1 = w' ∧
     ∃ d x, d ++ [x] `prefix_of` forward_sequence b (stack_ (graph w)) ∧
            calls w' = calls w ++ d ++ [x]).
Proof.
  intros H. split.
  - destruct (stack_cases w) as [Hs|(c & v & Hs)].
    + rewrite (backprop_nil b w Hs) in H. discriminate.
    + rewrite (backprop_perform b w c v Hs) in H.
      apply perform_throws in H as (Hg & Hh & d & x & Hp & He & Hc).
      exists c, v, d, x. done.
  - intros e1 w1 Hf. unfold backprop in H. unfold_M. rewrite Hf in H.
    inversion H; subst. split_and!; try done.
    rewrite forward_perform in Hf.
    apply perform_throws in Hf as (_ & _ & d & x & Hp & _ & Hc). eauto.
Qed.

Lemma invoke_undefined this (o : Op) w :
  invoke dispatch fragment this o w = Undefined →
  o = op_backward ∨ ∃ b, o = op_backprop b.
Proof.
  destruct o; simpl; intros H; eauto; exfalso; try discriminate H.
  - rewrite forward_perform in H. by apply perform_defined in H.
  - pose proof (graphviz_perform w) as Hg. unfold discard in H. unfold_M.
    destruct (graphviz dispatch fragment w); [discriminate..|done].
  - unfold discard in H. unfold_M.
    destruct (named_ (graph w) !! name) as [e|] eqn:Hn.
    + rewrite (operator_index_bound _ _ _ Hn) in H. discriminate.
    + rewrite (operator_index_absent _ _ Hn) in H. discriminate.
Qed.

(** X5: the calls of the member functions that have undefined behaviour
    are exactly [backward()] and [backprop(b)] on a graph with no node. *)
Theorem undefined_exactly_on_empty_backward this (o : Op) w :
  invoke dispatch fragment this o w = Undefined ↔
  stack_ (graph w) = [] ∧ (o = op_backward ∨ ∃ b, o = op_backprop b).
Proof.
  split.
  - intros H. pose proof (invoke_undefined this o w H) as Ho. split; [|done].
    destruct (stack_cases w) as [Hs|(c & v & Hs)]; [done|]. exfalso.
    destruct Ho as [->|[b ->]]; simpl in H.
    + rewrite (backward_perform dispatch w c v Hs) in H.
      by apply perform_defined in H.
    + rewrite (backprop_perform _ w c v Hs) in H. by apply perform_defined in H.
  - intros [Hs [->|[b ->]]]; simpl.
    + by apply backward_nil.
    + by apply backprop_nil.
Qed.

(** X7: [has_node] is the guard of [operator[]]: it returns [true] exactly
    when the lookup of the same name returns a handle, and [false] exactly
    when the lookup throws NameNotFound. *)
Theorem has_node_guards_lookup w name :
  (has_node name w = Returns true w ↔ ∃ e, operator_index name w = Returns e w) ∧
  (has_node name w = Returns false w ↔
   operator_index name w = Throws (NameNotFound name) w).
Proof.
  rewrite has_node_returns.
  destruct (named_ (graph w) !! name) as [e|] eqn:Hn.
  - rewrite (operator_index_bound _ _ _ Hn).
    rewrite bool_decide_eq_true_2 by eauto. split; split.
    + eauto.
    + done.
    + discriminate.
    + discriminate.
  - rewrite (operator_index_absent _ _ Hn).
    rewrite bool_decide_eq_false_2 by (by intros [? ?]). split; split.
    + discriminate.
    + intros [e He]. discriminate.
    + done.
    + done.
Qed.

(** *** The registry under sequences of calls *)

Lemma map_emplace_is_Some (m : gmap string Expr) name e :
  is_Some (map_emplace name e m !! name).
Proof.
  unfold map_emplace. destruct (m !! name) eqn:Hn; [by rewrite Hn|].
  rewrite lookup_insert_eq. eauto.
Qed.

Lemma map_emplace_twice (m : gmap string Expr) name e e' :
  map_emplace name e' (map_emplace name e m) = map_emplace name e m.
Proof.
  destruct (map_emplace_is_Some m name e) as [x Hx].
  by apply (map_emplace_bound _ _ _ x).
Qed.

Lemma map_emplace_commute (m : gmap string Expr) n1 n2 e1 e2 :
  n1 ≠ n2 →
  map_emplace n2 e2 (map_emplace n1 e1 m) = map_emplace n1 e1 (map_emplace n2 e2 m).
Proof.
  intros Hne. unfold map_emplace.
  destruct (m !! n1) eqn:H1, (m !! n2) eqn:H2;
    rewrite ?H1, ?H2, ?lookup_insert_ne, ?H1, ?H2 by done; try done.
  by apply insert_insert_ne.
Qed.

Lemma registrations_cons name (o : Op) ops :
  registrations name (o :: ops) =
  match o with
  | op_add_named_node e n =>
      if decide (n = name) then e :: registrations name ops
      else registrations name ops
  | _ => registrations name ops
  end.
Proof.
  unfold registrations. destruct o; simpl; try done. by destruct (decide _).
Qed.

(** X8: the registry after any sequence of member-function calls. A name
    bound at the start is bound to the same handle; a name free at the start
    is bound to the handle of the first [add_named_node] under it in the
    sequence, and is free if there is none. *)
Theorem registry_after_run this ops w w' name :
  run dispatch fragment this ops w w' →
  named_ (graph w') !! name =
  match named_ (graph w) !! name with
  | Some e => Some e
  | None => head (registrations name ops)
  end.
Proof.
  induction 1 as [w|o ops w w1 w2 Ho _ IH].
  - by destruct (named_ (graph w) !! name).
  - rewrite IH, (invoke_named _ _ _ _ _ _ Ho), registrations_cons.
    destruct o; try done.
    destruct (decide (name0 = name)) as [->|Hne].
    + destruct (named_ (graph w) !! name) as [e0|] eqn:Hn.
      * by rewrite (map_emplace_keeps _ _ _ _ _ Hn).
      * by rewrite (map_emplace_free _ _ _ Hn), lookup_insert_eq.
    + by rewrite map_emplace_other.
Qed.

(** X9: [add_named_node(e, name)] touches the entry of [name] only: every
    other name looks up as before, and the stack, the two handle lists, the
    node objects, the tensors and the log of calls are as before. The
    registry gains one entry when [name] was free and none when it was
    bound. *)
Theorem add_named_node_frame w (e : Expr) name :
  ∃ w1, add_named_node e name w = Returns () w1 ∧
        (∀ other, other ≠ name →
           named_ (graph w1) !! other = named_ (graph w) !! other) ∧
        stack_ (graph w1) = stack_ (graph w) ∧
        inputs_ (graph w1) = inputs_ (graph w) ∧
        params_ (graph w1) = params_ (graph w) ∧
        heap w1 = heap w ∧ tensors w1 = tensors w ∧ calls w1 = calls w ∧
        size (named_ (graph w1)) =
          match named_ (graph w) !! name with
          | Some _ => size (named_ (graph w))
          | None => S (size (named_ (graph w)))
          end.
Proof.
  eexists. split; [apply add_named_node_returns|]. simpl.
  split_and!; try done.
  - intros other Hne. by apply map_emplace_other.
  - unfold map_emplace. destruct (named_ (graph w) !! name) eqn:Hn; [done|].
    by apply map_size_insert_None.
Qed.

(** X10: after [add_named_node(e, name)], whatever the graph was,
    [has_node(name)] returns [true] and [operator[](name)] returns a
    handle: the one bound before if there was one, [e] otherwise. *)
Theorem add_named_node_then_lookup w (e : Expr) name :
  ∃ w1, add_named_node e name w = Returns () w1 ∧
        has_node name w1 = Returns true w1 ∧
        operator_index name w1 =
          Returns (default e (named_ (graph w) !! name)) w1.
Proof.
  eexists. split; [apply add_named_node_returns|]. split.
  - rewrite has_node_returns. simpl. f_equal.
    apply bool_decide_eq_true_2, map_emplace_is_Some.
  - apply operator_index_bound. simpl.
    destruct (named_ (graph w) !! name) as [e0|] eqn:Hn; simpl.
    + by apply map_emplace_keeps.
    + by rewrite (map_emplace_free _ _ _ Hn), lookup_insert_eq.
Qed.

(** X11: a second registration under the same name is absorbed:
    [add_named_node(e, name)] followed by [add_named_node(e', name)] ends in
    the state of [add_named_node(e, name)] alone. *)
Theorem add_named_node_absorbs w (e e' : Expr) name :
  (add_named_node e name ;; add_named_node e' name) w = add_named_node e name w.
Proof.
  unfold_M. rewrite add_named_node_returns, (add_named_node_returns _ e').
  simpl. by rewrite map_emplace_twice.
Qed.

(** X12: registrations under different names commute: made in either
    order they end in the same state. *)
Theorem add_named_node_commutes w (e1 e2 : Expr) n1 n2 :
  n1 ≠ n2 →
  (add_named_node e1 n1 ;; add_named_node e2 n2) w =
  (add_named_node e2 n2 ;; add_named_node e1 n1) w.
Proof.
  intros Hne. unfold_M.
  rewrite (add_named_node_returns w e1), (add_named_node_returns w e2).
  rewrite !add_named_node_returns. simpl.
  by rewrite (map_emplace_commute _ n1 n2 e1 e2 Hne).
Qed.

(** *** The handle lists and the node objects under sequences of calls *)

Lemma heap_fresh_free (h : gmap ChainPtr Chainable) : h !! fresh (dom h) = None.
Proof. apply not_elem_of_dom, is_fresh. Qed.

Lemma heap_after_keeps (o : Op) (h : gmap ChainPtr Chainable) q n :
  h !! q = Some n → heap_after o h !! q = Some n.
Proof.
  intros Hq. unfold heap_after. destruct (constructs o); [|done].
  rewrite lookup_insert_ne; [done|]. intros Heq.
  pose proof (heap_fresh_free h) as Hf. rewrite Heq in Hf. congruence.
Qed.

Lemma heap_after_fresh (o : Op) (h : gmap ChainPtr Chainable) n :
  constructs o = Some n → heap_after o h !! fresh (dom h) = Some n.
Proof. intros Hc. unfold heap_after. rewrite Hc. apply lookup_insert_eq. Qed.

Lemma graph_after_inputs this (o : Op) h (g : ExpressionGraph) :
  inputs_ (graph_after this o h g) =
  if is_input o then inputs_ g ++ [mkExpr this (fresh (dom h))] else inputs_ g.
Proof. by destruct o. Qed.

Lemma graph_after_params this (o : Op) h (g : ExpressionGraph) :
  params_ (graph_after this o h g) =
  if is_param o then params_ g ++ [mkExpr this (fresh (dom h))] else params_ g.
Proof. by destruct o. Qed.

Lemma count_calls_cons (f : Op → bool) (o : Op) ops :
  count_calls f (o :: ops) = (if f o then 1 else 0) + count_calls f ops.
Proof. unfold count_calls. simpl. by destruct (f o). Qed.

(** X13: the input list and the parameter list only grow at their end.
    After any sequence of member-function calls the lists of the start are
    prefixes of the lists of the end, the input list has grown by one handle
    for each [input] call of the sequence and the parameter list by one for
    each [param] call; no other call changes their length. *)
Theorem handle_lists_grow this ops w w' :
  run dispatch fragment this ops w w' →
  inputs_ (graph w) `prefix_of` inputs_ (graph w') ∧
  params_ (graph w) `prefix_of` params_ (graph w') ∧
  length (inputs_ (graph w')) = length (inputs_ (graph w)) + count_calls is_input ops ∧
  length (params_ (graph w')) = length (params_ (graph w)) + count_calls is_param ops.
Proof.
  induction 1 as [w|o ops w w1 w2 Ho _ IH].
  - unfold count_calls. simpl. split_and!; try done; lia.
  - destruct IH as (Hi & Hp & Hli & Hlp).
    apply invoke_graph_heap in Ho as [Hg _].
    rewrite Hg, graph_after_inputs in Hi, Hli.
    rewrite Hg, graph_after_params in Hp, Hlp.
    rewrite !count_calls_cons. split_and!.
    + etrans; [|exact Hi]. destruct (is_input o); [by apply prefix_app_r|done].
    + etrans; [|exact Hp]. destruct (is_param o); [by apply prefix_app_r|done].
    + rewrite Hli. destruct (is_input o); rewrite ?length_app; simpl; lia.
    + rewrite Hlp. destruct (is_param o); rewrite ?length_app; simpl; lia.
Qed.

Lemma invoke_lists_typed this (o : Op) w w1 :
  ends (invoke dispatch fragment this o) w w1 →
  lists_typed this w → lists_typed this w1.
Proof.
  intros Ho [Hin Hpa]. apply invoke_graph_heap in Ho as [Hg Hh].
  unfold lists_typed. rewrite Hg, Hh, graph_after_inputs, graph_after_params.
  split; intros e He.
  - destruct o; simpl in He;
      try (destruct (Hin e He) as (Ht & args' & Ha); split; [done|];
           exists args'; by apply heap_after_keeps).
    apply elem_of_app in He as [He|He].
    + destruct (Hin e He) as (Ht & args' & Ha). split; [done|].
      exists args'. by apply heap_after_keeps.
    + apply list_elem_of_singleton in He as ->. split; [done|].
      exists args. by apply heap_after_fresh.
  - destruct o; simpl in He;
      try (destruct (Hpa e He) as (Ht & args' & Ha); split; [done|];
           exists args'; by apply heap_after_keeps).
    apply elem_of_app in He as [He|He].
    + destruct (Hpa e He) as (Ht & args' & Ha). split; [done|].
      exists args'. by apply heap_after_keeps.
    + apply list_elem_of_singleton in He as ->. split; [done|].
      exists args. by apply heap_after_fresh.
Qed.

(** X14: the handle lists are typed. Through any sequence of
    member-function calls every handle of the input list is a handle of this
    graph on an [InputNode] object and every handle of the parameter list one
    on a [ParamNode] object; this holds in particular after any sequence of
    calls on a newly constructed graph. *)
Theorem handle_lists_typed this ops w w' :
  run dispatch fragment this ops w w' →
  (lists_typed this w → lists_typed this w') ∧
  (graph w = ExpressionGraph_ctor → lists_typed this w').
Proof.
  intros Hrun.
  assert (Hkeep : lists_typed this w → lists_typed this w').
  { induction Hrun as [w|o ops w w1 w2 Ho _ IH]; [done|].
    intros Hw. apply IH. by eapply invoke_lists_typed. }
  split; [done|]. intros Hg. apply Hkeep. unfold lists_typed. rewrite Hg. simpl.
  split; intros e He; by apply elem_of_nil in He.
Qed.



(** X17: after a construction call [backward()] is defined, and the node
    it seeds with [init_dependent()] and visits first is the node just
    constructed: it performs the calls of [backward_sequence] over the old
    stack followed by the new node. *)
Theorem backward_after_construction this (o : Op) n w w1 :
  constructs o = Some n →
  ends (invoke dispatch fragment this o) w w1 →
  heap w1 !! fresh (dom (heap w)) = Some n ∧
  backward dispatch w1 =
    perform dispatch (backward_sequence (stack_ (graph w)) (fresh (dom (heap w)))) w1 ∧
  backward dispatch w1 ≠ Undefined.
Proof.
  intros Hc Ho. apply invoke_graph_heap in Ho as [Hg Hh].
  assert (Hs : stack_ (graph w1) = stack_ (graph w) ++ [fresh (dom (heap w))]).
  { rewrite Hg. by apply (graph_after_stack this o _ _ n). }
  split_and!.
  - rewrite Hh. by apply heap_after_fresh.
  - by apply backward_perform.
  - rewrite (backward_perform dispatch w1 _ _ Hs). apply perform_defined.
Qed.

(** *** Which nodes the graph calls *)

Lemma forward_sequence_callee (b : Z) c x :
  x ∈ forward_sequence b c → callee x ∈ c.
Proof.
  unfold forward_sequence. intros Hx.
  apply elem_of_app in Hx as [Hx|Hx];
    apply list_elem_of_fmap in Hx as (v & -> & Hv); done.
Qed.

Lemma backward_sequence_callee c (v : ChainPtr) x :
  x ∈ backward_sequence c v → callee x ∈ c ++ [v].
Proof.
  unfold backward_sequence. intros Hx.
  apply elem_of_app in Hx as [Hx|Hx].
  - apply list_elem_of_fmap in Hx as (u & -> & Hu). done.
  - apply elem_of_app in Hx as [Hx|Hx].
    + apply list_elem_of_singleton in Hx as ->. simpl.
      apply elem_of_app. right. by apply list_elem_of_singleton.
    + apply list_elem_of_fmap in Hx as (u & -> & Hu). simpl.
      apply elem_of_cons in Hu as [->|Hu].
      * apply elem_of_app. right. by apply list_elem_of_singleton.
      * apply elem_of_app. left. by apply elem_of_reverse.
Qed.

Lemma perform_ends_log cs w w' :
  ends (perform dispatch cs) w w' →
  ∃ d, calls w' = calls w ++ d ∧ d `prefix_of` cs.
Proof.
  intros [[[] H]|[e H]].
  - apply perform_returns in H as (_ & _ & H). eauto.
  - apply perform_throws in H as (_ & _ & d & x & Hp & _ & H). eauto.
Qed.


(** X18: the graph calls into the nodes of its own stack only, and only
    in the traversals and the rendering. However a member function comes
    back, the virtual calls it has logged are all on nodes that were on the
    stack when it started, and a member function other than [backprop],
    [forward], [backward] and [graphviz] has logged none. *)
Theorem calls_only_on_stack_nodes this (o : Op) w w' :
  ends (invoke dispatch fragment this o) w w' →
  ∃ d, calls w' = calls w ++ d ∧
       (∀ x, x ∈ d → callee x ∈ stack_ (graph w)) ∧
       (visits_nodes o = false → d = []).
Proof.
  intros H.
  assert (Hperf : ∀ cs, ends (perform dispatch cs) w w' →
            (∀ x, x ∈ cs → callee x ∈ stack_ (graph w)) →
            ∃ d, calls w' = calls w ++ d ∧
                 (∀ x, x ∈ d → callee x ∈ stack_ (graph w))).
  { intros cs Hp Hcs. apply perform_ends_log in Hp as (d & Hd & [k ->]).
    exists d. split; [done|]. intros x Hx. apply Hcs, elem_of_app. by left. }
  assert (Hnone : visits_nodes o = false → calls w' = calls w →
            ∃ d, calls w' = calls w ++ d ∧
                 (∀ x, x ∈ d → callee x ∈ stack_ (graph w)) ∧
                 (visits_nodes o = false → d = [])).
  { intros _ Hc. exists []. rewrite app_nil_r.
    split_and!; [done| |done]. by intros x Hx%elem_of_nil. }
  destruct o; simpl in H; try apply ends_discard in H.
  - destruct (stack_cases w) as [Hs|(c & v & Hs)].
    + unfold ends in H. rewrite (backprop_nil _ w Hs) in H. by ends_inv H.
    + unfold ends in H. rewrite (backprop_perform _ w c v Hs) in H.
      apply Hperf in H; [destruct H as (d & Hd & Hc); exists d; by split_and!|].
      intros x Hx. rewrite Hs. apply elem_of_app in Hx as [Hx|Hx].
      * by apply forward_sequence_callee in Hx.
      * by apply backward_sequence_callee in Hx.
  - unfold ends in H. rewrite forward_perform in H.
    apply Hperf in H; [destruct H as (d & Hd & Hc); exists d; by split_and!|].
    intros x Hx. by apply forward_sequence_callee in Hx.
  - destruct (stack_cases w) as [Hs|(c & v & Hs)].
    + unfold ends in H. rewrite (backward_nil dispatch w Hs) in H. by ends_inv H.
    + unfold ends in H. rewrite (backward_perform dispatch w c v Hs) in H.
      apply Hperf in H; [destruct H as (d & Hd & Hc); exists d; by split_and!|].
      intros x Hx. rewrite Hs. by apply backward_sequence_callee in Hx.
  - assert (Hp : ends (perform dispatch
                         (node_graphviz <$> reverse (stack_ (graph w)))) w w').
    { pose proof (graphviz_perform w) as Hg.
      destruct H as [[s H]|[e H]]; rewrite H in Hg.
      - left. exists (). tauto.
      - right. eauto. }
    apply Hperf in Hp; [destruct Hp as (d & Hd & Hc); exists d; by split_and!|].
    intros x Hx. apply list_elem_of_fmap in Hx as (v & -> & Hv). simpl.
    by apply elem_of_reverse.
  - apply Hnone; [done|]. by ends_inv H.
  - apply Hnone; [done|]. by ends_inv H.
  - apply Hnone; [done|]. by ends_inv H.
  - apply Hnone; [done|]. by ends_inv H.
  - apply Hnone; [done|]. by ends_inv H.
  - apply Hnone; [done|]. by ends_inv H.
  - unfold ends in H. destruct (named_ (graph w) !! name) as [e|] eqn:Hn.
    + rewrite (operator_index_bound _ _ _ Hn) in H. apply Hnone; [done|].
      by ends_inv H.
    + rewrite (operator_index_absent _ _ Hn) in H. apply Hnone; [done|].
      by ends_inv H.
  - unfold ends in H. rewrite has_node_returns in H. apply Hnone; [done|].
    by ends_inv H.
  - apply Hnone; [done|]. by ends_inv H.
  - apply Hnone; [done|]. by ends_inv H.
  - apply Hnone; [done|]. by ends_inv H.
Qed.

End Further.

(** ** The further properties on sample graphs *)

Lemma session_runs :
  run counting_dispatch no_fragment 1%positive session fresh_world session_end.
Proof.
  unfold session.
  eapply run_cons; [left; exists (); vm_compute; reflexivity|].
  eapply run_cons; [left; exists (); vm_compute; reflexivity|].
  eapply run_cons; [left; exists (); vm_compute; reflexivity|].
  eapply run_cons; [left; exists (); vm_compute; reflexivity|].
  eapply run_cons; [left; exists (); vm_compute; reflexivity|].
  eapply run_cons; [left; exists (); vm_compute; reflexivity|].
  eapply run_cons; [right; eexists; vm_compute; reflexivity|].
  apply run_nil.
Defined.

Example graphviz_three_nodes :
  ∃ w', graphviz counting_dispatch address_fragment three_nodes =
          Returns ("digraph ExpressionGraph {" +:+ endl +:+ "rankdir=BT" +:+ endl +:+
                   "3;2;1;" +:+ "}" +:+ endl) w' ∧
        calls w' = [node_graphviz 3%positive; node_graphviz 2%positive;
                    node_graphviz 1%positive].
Proof. eexists. split; [vm_compute; reflexivity|]. reflexivity. Qed.

Lemma graphviz_empty_graph_witness :
  stack_ (graph fresh_world) = [] ∧
  graphviz counting_dispatch address_fragment fresh_world =
  Returns ("digraph ExpressionGraph {" +:+ endl +:+ "rankdir=BT" +:+ endl +:+
           "}" +:+ endl) fresh_world.
Proof.
  split; [reflexivity|].
  exact (graphviz_empty_graph counting_dispatch address_fragment fresh_world eq_refl).
Defined.

Lemma backprop_empty_graph_undefined_witness :
  stack_ (graph fresh_world) = [] ∧
  backprop counting_dispatch 2 fresh_world = Undefined.
Proof.
  split; [reflexivity|].
  exact (proj1 (backprop_empty_graph_undefined counting_dispatch 2 fresh_world eq_refl)).
Defined.

Lemma backprop_stops_at_first_failure_witness :
  backprop strict_dispatch 0 three_nodes =
    Throws (node_exception (allocate 1%positive 0))
      {| graph := graph three_nodes; heap := heap three_nodes; tensors := 0;
         calls := [allocate 1%positive 0] |} ∧
  ∃ c (v : ChainPtr) d x,
    stack_ (graph three_nodes) = c ++ [v] ∧
    node_exception (allocate 1%positive 0) = node_exception x ∧
    d ++ [x] `prefix_of` forward_sequence 0 (c ++ [v]) ++ backward_sequence c v ∧
    [allocate 1%positive 0] = calls three_nodes ++ d ++ [x] ∧
    graph three_nodes = graph three_nodes ∧ heap three_nodes = heap three_nodes.
Proof.
  assert (H : backprop strict_dispatch 0 three_nodes =
    Throws (node_exception (allocate 1%positive 0))
      {| graph := graph three_nodes; heap := heap three_nodes; tensors := 0;
         calls := [allocate 1%positive 0] |}) by reflexivity.
  split; [exact H|].
  exact (proj1 (backprop_stops_at_first_failure strict_dispatch 0 three_nodes _ _ H)).
Defined.


Lemma registry_after_run_witness :
  run counting_dispatch no_fragment 1%positive session fresh_world session_end ∧
  named_ (graph session_end) !! "w" = Some (mkExpr 1%positive 1%positive) ∧
  named_ (graph session_end) !! "missing" = None.
Proof.
  split; [exact session_runs|]. split.
  - exact (registry_after_run counting_dispatch no_fragment 1%positive session
             fresh_world session_end "w" session_runs).
  - exact (registry_after_run counting_dispatch no_fragment 1%positive session
             fresh_world session_end "missing" session_runs).
Defined.

Lemma add_named_node_commutes_witness :
  "w" ≠ "b" ∧
  (add_named_node (mkExpr 1%positive 2%positive) "w" ;;
   add_named_node (mkExpr 1%positive 3%positive) "b") three_nodes =
  (add_named_node (mkExpr 1%positive 3%positive) "b" ;;
   add_named_node (mkExpr 1%positive 2%positive) "w") three_nodes.
Proof.
  assert (Hne : "w" ≠ "b") by discriminate.
  split; [exact Hne|].
  exact (add_named_node_commutes three_nodes _ _ "w" "b" Hne).
Defined.

Lemma handle_lists_grow_witness :
  run counting_dispatch no_fragment 1%positive session fresh_world session_end ∧
  length (inputs_ (graph session_end)) = 0 + count_calls is_input session ∧
  length (params_ (graph session_end)) = 0 + count_calls is_param session.
Proof.
  split; [exact session_runs|].
  destruct (handle_lists_grow counting_dispatch no_fragment 1%positive session
              fresh_world session_end session_runs) as (_ & _ & Hi & Hp).
  split; [exact Hi|exact Hp].
Defined.

Lemma handle_lists_typed_witness :
  run counting_dispatch no_fragment 1%positive session fresh_world session_end ∧
  graph fresh_world = ExpressionGraph_ctor ∧
  lists_typed 1%positive session_end.
Proof.
  split; [exact session_runs|]. split; [reflexivity|].
  exact (proj2 (handle_lists_typed counting_dispatch no_fragment 1%positive session
                  fresh_world session_end session_runs) eq_refl).
Defined.


Lemma backward_after_construction_witness :
  constructs (op_ones []) = Some (ConstantNode [value 1]) ∧
  ∃ w1, ends (invoke counting_dispatch no_fragment 1%positive (op_ones [])) fresh_world w1 ∧
        backward counting_dispatch w1 ≠ Undefined.
Proof.
  split; [reflexivity|].
  assert (He : ∃ w1, ends (invoke counting_dispatch no_fragment 1%positive (op_ones []))
                       fresh_world w1).
  { eexists. left. exists (). vm_compute. reflexivity. }
  destruct He as [w1 He]. exists w1. split; [exact He|].
  exact (proj2 (proj2 (backward_after_construction counting_dispatch no_fragment
                         1%positive (op_ones []) _ fresh_world w1 eq_refl He))).
Defined.

Lemma calls_only_on_stack_nodes_witness :
  ∃ w', ends (invoke strict_dispatch no_fragment 1%positive (op_forward 0)) three_nodes w' ∧
        ∃ d, calls w' = calls three_nodes ++ d ∧
             (∀ x, x ∈ d → callee x ∈ stack_ (graph three_nodes)) ∧
             (visits_nodes (op_forward 0) = false → d = []).
Proof.
  assert (He : ∃ w', ends (invoke strict_dispatch no_fragment 1%positive (op_forward 0))
                       three_nodes w').
  { eexists. right. eexists. vm_compute. reflexivity. }
  destruct He as [w' He]. exists w'. split; [exact He|].
  exact (calls_only_on_stack_nodes strict_dispatch no_fragment 1%positive
           (op_forward 0) three_nodes w' He).
Defined.

End marian.
